(** * color-swatches: the divide-and-conquer colour search of [src/App.jsx]

    A shallow embedding of [useDebounce] and [useColorsDivideAndConquer]
    (with its closures [getColor], [addColorIfUnique], [findIntervals] and the
    root launcher), followed by the properties of the written specification.

    JavaScript runs the asynchronous search as cooperative tasks on one
    thread: a task runs until its next [await] and is resumed later.  The
    embedding keeps every [await] of the source as a suspension point and
    lets a schedule (a list of labels) choose which suspended task is
    resumed next and with which answer of the colour API. *)

From stdpp Require Import gmap strings list sorting.
From Stdlib Require Import ZArith Lia.

Local Open Scope Z_scope.

(** ** Data *)

(** A colour as returned by the colour API.  The source reads
    [color.name.value] (the identity), [color.hsl.h] (the sort key) and, in
    the rendering layer, [color.hex.value]. *)
Record Color := mkColor {
  name_value : string;
  hsl_h : Z;
  hex_value : string
}.

(** ** The result aggregator: [seen], [colors] and [addColorIfUnique] *)

Module Aggregator.

(** [seen] is the [Set] of names of the effect closure, [colors] the React
    state updated with [setColors(prev => [...prev, color])]. *)
Record t := mk {
  seen : gset string;
  colors : list Color
}.

Definition empty : t := {| seen := ∅; colors := [] |}.

(** [addColorIfUnique] (App.jsx 153-158). *)
Definition addColorIfUnique (color : Color) (a : t) : t :=
  if bool_decide (name_value color ∈ seen a)
  then a
  else {| seen := {[ name_value color ]} ∪ seen a;
          colors := colors a ++ [color] |}.

(** A sequence of emissions, applied in order. *)
Definition emit_all (cs : list Color) (a : t) : t :=
  foldl (fun acc c => addColorIfUnique c acc) a cs.

(** The aggregator invariant: [seen] is exactly the set of names held in
    [colors], and no name occurs twice. *)
Definition wf (a : t) : Prop :=
  NoDup (name_value <$> colors a) ∧
  ∀ n, n ∈ seen a ↔ n ∈ (name_value <$> colors a).

End Aggregator.

(** ** The read side: [colorsSorted] *)

(** [Object.values(colors).sort((a, b) => a.hsl.h - b.hsl.h)] (App.jsx 205):
    a stable sort of a copy of the list, ascending in [hsl.h]. *)
Fixpoint insert_by_h (c : Color) (l : list Color) : list Color :=
  match l with
  | [] => [c]
  | d :: l' => if hsl_h d <=? hsl_h c then d :: insert_by_h c l' else c :: l
  end.

Definition colorsSorted (colors : list Color) : list Color :=
  foldl (fun acc c => insert_by_h c acc) [] colors.

Definition h_le (a b : Color) : Prop := hsl_h a <= hsl_h b.

(** ** The search engine: the effect of [useColorsDivideAndConquer] *)

Module Engine.

(** What an [await getColor(hue)] is suspended on: a request to the colour
    API that has not settled, or a promise already fulfilled with [data]
    whose continuation has not run yet. *)
Inductive wait :=
| InFlight
| Ready (data : Color).

(** The task tree of one generation.  A call of [findIntervals(start, end)]
    is suspended at its first [await] (line 162), at its second (line 163)
    or at [await Promise.all([...])] (line 175); it has returned ([Done])
    or thrown ([Failed]). *)
Inductive proc :=
| AwaitStart (s e : Z) (w : wait)
| AwaitEnd (s e : Z) (colorStart : Color) (w : wait)
| Join (l r : proc)
| Done
| Failed.

(** State of a promise. *)
Inductive status := Pending | Fulfilled | Rejected.

(** The promise of a call; for [Join], that of [Promise.all]: rejected as
    soon as one member is, fulfilled when both are. *)
Fixpoint settle (t : proc) : status :=
  match t with
  | AwaitStart _ _ _ | AwaitEnd _ _ _ _ => Pending
  | Done => Fulfilled
  | Failed => Rejected
  | Join l r =>
      match settle l, settle r with
      | Rejected, _ | _, Rejected => Rejected
      | Fulfilled, Fulfilled => Fulfilled
      | _, _ => Pending
      end
  end.

(** State that outlives an effect run: [cacheRef.current], the React
    states [colors] and [loading]; [calls] records every [fetchColor]
    call as (generation, hue). *)
Record shared := mkShared {
  cache : gmap Z Color;
  colors : list Color;
  loading : bool;
  calls : list (nat * Z)
}.

(** The closure of one run of the effect (one generation): the flag
    [cancelled], the set [seen], the debounced values it was started for,
    the two root calls joined by the launcher's [Promise.all], and whether
    the launcher (lines 183-194) is still suspended on it. *)
Record generation := mkGeneration {
  context : Z * Z;
  cancelled : bool;
  seen : gset string;
  root : proc;
  awaiting_roots : bool
}.

Record world := mkWorld {
  hook : shared;
  gens : list generation
}.

Definition set_cache (m : gmap Z Color) (σ : shared) : shared :=
  mkShared m (colors σ) (loading σ) (calls σ).
Definition set_colors (l : list Color) (σ : shared) : shared :=
  mkShared (cache σ) l (loading σ) (calls σ).
Definition set_loading (b : bool) (σ : shared) : shared :=
  mkShared (cache σ) (colors σ) b (calls σ).
Definition log_call (g : nat) (hue : Z) (σ : shared) : shared :=
  mkShared (cache σ) (colors σ) (loading σ) (calls σ ++ [(g, hue)]).

Definition set_seen (s : gset string) (G : generation) : generation :=
  mkGeneration (context G) (cancelled G) s (root G) (awaiting_roots G).
Definition set_root (t : proc) (G : generation) : generation :=
  mkGeneration (context G) (cancelled G) (seen G) t (awaiting_roots G).
Definition set_cancelled (G : generation) : generation :=
  mkGeneration (context G) true (seen G) (root G) (awaiting_roots G).
Definition launcher_finished (G : generation) : generation :=
  mkGeneration (context G) (cancelled G) (seen G) (root G) false.

(** [getColor] up to its [await] (lines 146-147): a cached hue gives a
    fulfilled promise and no request; otherwise [fetchColor] is called. *)
Definition getColor (g : nat) (hue : Z) (σ : shared) : wait * shared :=
  match cache σ !! hue with
  | Some data => (Ready data, σ)
  | None => (InFlight, log_call g hue σ)
  end.

(** [getColor] after its [await] (lines 148-149), when the request is
    answered with [data]. *)
Definition getColor_resolved (hue : Z) (data : Color) (σ : shared) : shared :=
  set_cache (<[hue := data]> (cache σ)) σ.

(** [addColorIfUnique] on the closure's [seen] and the state [colors]. *)
Definition addColorIfUnique (color : Color) (Gσ : generation * shared)
  : generation * shared :=
  let a := Aggregator.addColorIfUnique color
             (Aggregator.mk (seen Gσ.1) (colors Gσ.2)) in
  (set_seen (Aggregator.seen a) Gσ.1, set_colors (Aggregator.colors a) Gσ.2).

(** A call [findIntervals(start, end)], run to its first [await]. *)
Definition findIntervals (g : nat) (s e : Z) (σ : shared) : proc * shared :=
  let '(w, σ') := getColor g s σ in (AwaitStart s e w, σ').

(** [Math.floor((start + end) / 2)]. *)
Definition midpoint (s e : Z) : Z := (s + e) `div` 2.

(** The code after the second [await] (lines 164-179). *)
Definition decide_interval (g : nat) (s e : Z) (colorStart colorEnd : Color)
    (Gσ : generation * shared) : proc * (generation * shared) :=
  if cancelled Gσ.1 then (Done, Gσ)
  else if bool_decide (name_value colorStart = name_value colorEnd) then
    (Done, addColorIfUnique colorStart Gσ)
  else if e - s <=? 1 then
    (Done, addColorIfUnique colorEnd (addColorIfUnique colorStart Gσ))
  else
    let mid := midpoint s e in
    let '(l, σ1) := findIntervals g s mid Gσ.2 in
    let '(r, σ2) := findIntervals g (mid + 1) e σ1 in
    (Join l r, (Gσ.1, σ2)).

(** Resuming a task whose awaited promise is fulfilled. *)
Definition resume (g : nat) (Gσ : generation * shared) (t : proc)
  : option (proc * (generation * shared)) :=
  match t with
  | AwaitStart s e (Ready colorStart) =>
      let '(w, σ') := getColor g e Gσ.2 in
      Some (AwaitEnd s e colorStart w, (Gσ.1, σ'))
  | AwaitEnd s e colorStart (Ready colorEnd) =>
      Some (decide_interval g s e colorStart colorEnd Gσ)
  | _ => None
  end.

(** The colour API answers the request a task is suspended on. *)
Definition resolve (data : Color) (Gσ : generation * shared) (t : proc)
  : option (proc * (generation * shared)) :=
  match t with
  | AwaitStart s e InFlight =>
      Some (AwaitStart s e (Ready data), (Gσ.1, getColor_resolved s data Gσ.2))
  | AwaitEnd s e colorStart InFlight =>
      Some (AwaitEnd s e colorStart (Ready data),
            (Gσ.1, getColor_resolved e data Gσ.2))
  | _ => None
  end.

(** The request fails (network error, or abort): [getColor] throws and so
    does the [findIntervals] call awaiting it; nothing catches it. *)
Definition reject (Gσ : generation * shared) (t : proc)
  : option (proc * (generation * shared)) :=
  match t with
  | AwaitStart _ _ InFlight | AwaitEnd _ _ _ InFlight => Some (Failed, Gσ)
  | _ => None
  end.

(** Position of a task in the tree: [false] is the first member of a
    [Promise.all], [true] the second. *)
Definition path := list bool.

Fixpoint at_path {S : Type} (p : path) (k : proc → option (proc * S)) (t : proc)
  : option (proc * S) :=
  match p, t with
  | [], _ => k t
  | false :: p', Join l r =>
      match at_path p' k l with
      | Some (l', x) => Some (Join l' r, x)
      | None => None
      end
  | true :: p', Join l r =>
      match at_path p' k r with
      | Some (r', x) => Some (Join l r', x)
      | None => None
      end
  | _, _ => None
  end.

(** What can happen next inside one generation: the colour API answers or
    fails the request a task is suspended on, a task whose promise is
    fulfilled is resumed, or the launcher is.  The engine puts no
    condition on when a request is answered: an answer is accepted at any
    time, also for a generation that was cancelled, which is more than
    [fetch] with an aborted signal delivers.  What is proved of every run
    of the engine therefore holds of the hook in the browser;
    [Instance.step] below adds what [fetch] does with the signal. *)
Inductive action :=
| Resolve (p : path) (data : Color)
| Reject (p : path)
| Resume (p : path)
| Settle.

(** The launcher after its [await Promise.all] (lines 191-193). *)
Definition settle_roots (Gσ : generation * shared) : option (generation * shared) :=
  if awaiting_roots Gσ.1 then
    match settle (root Gσ.1) with
    | Fulfilled =>
        Some (launcher_finished Gσ.1,
              if cancelled Gσ.1 then Gσ.2 else set_loading false Gσ.2)
    | _ => None
    end
  else None.

(** A step of the task at position [p], written back into the tree. *)
Definition on_task (p : path)
    (k : generation * shared → proc → option (proc * (generation * shared)))
    (Gσ : generation * shared) : option (generation * shared) :=
  match at_path p (k Gσ) (root Gσ.1) with
  | Some (t', (G', σ')) => Some (set_root t' G', σ')
  | None => None
  end.

Definition gen_step (g : nat) (a : action) (Gσ : generation * shared)
  : option (generation * shared) :=
  match a with
  | Resolve p data => on_task p (resolve data) Gσ
  | Reject p => on_task p reject Gσ
  | Resume p => on_task p (resume g) Gσ
  | Settle => settle_roots Gσ
  end.

(** The effect body (lines 135-194) run for generation number [g]. *)
Definition start_generation (g : nat) (ctx : Z * Z) (σ : shared)
  : generation * shared :=
  let σ0 := mkShared ∅ [] true (calls σ) in
  let mid := 359 `div` 2 in
  let '(l, σ1) := findIntervals g 0 mid σ0 in
  let '(r, σ2) := findIntervals g (mid + 1) 359 σ1 in
  (mkGeneration ctx false ∅ (Join l r) true, σ2).

(** What can happen next in the hook: a step of one of the generations
    started so far, or new debounced values. *)
Inductive label :=
| Act (g : nat) (a : action)
| NewGeneration (ctx : Z * Z).

(** A change of the debounced values: React runs the cleanup of the
    previous effect (lines 197-200), then the effect body. *)
Definition new_generation (ctx : Z * Z) (w : world) : world :=
  let old := alter set_cancelled (pred (length (gens w))) (gens w) in
  let '(G, σ) := start_generation (length (gens w)) ctx (hook w) in
  mkWorld σ (old ++ [G]).

Definition step (l : label) (w : world) : option world :=
  match l with
  | Act g a =>
      match gens w !! g with
      | Some G =>
          match gen_step g a (G, hook w) with
          | Some (G', σ') => Some (mkWorld σ' (<[g := G']> (gens w)))
          | None => None
          end
      | None => None
      end
  | NewGeneration ctx => Some (new_generation ctx w)
  end.

Fixpoint run (ls : list label) (w : world) : option world :=
  match ls with
  | [] => Some w
  | l :: ls' =>
      match step l w with
      | Some w' => run ls' w'
      | None => None
      end
  end.

(** Before the component mounts. *)
Definition unmounted : world := mkWorld (mkShared ∅ [] false []) [].

(** Runs of a single generation. *)
Fixpoint gen_run (g : nat) (acts : list action) (Gσ : generation * shared)
  : option (generation * shared) :=
  match acts with
  | [] => Some Gσ
  | a :: acts' =>
      match gen_step g a Gσ with
      | Some Gσ' => gen_run g acts' Gσ'
      | None => None
      end
  end.

(** Hues requested from the colour API on behalf of generation [g]. *)
Definition calls_of (g : nat) (σ : shared) : list Z :=
  (filter (fun c => c.1 = g) (calls σ)).*2.

End Engine.

(** ** The debounced generation controller: [useDebounce] *)

Module Debounce.

(** One instance of [useDebounce(value, delay)]: the last [value] rendered,
    the state [debouncedValue], and the pending [setTimeout] as the time it
    fires (in ms) together with the value its callback captured. *)
Record hook := mkHook {
  value : Z;
  debouncedValue : Z;
  handler : option (Z * Z)
}.

(** First render at time [now]: [useState(value)], then the effect arms a
    timer. *)
Definition mount (now delay v : Z) : hook :=
  mkHook v v (Some (now + delay, v)).

(** A render with [value = v] at time [now].  The effect depends on
    [[value, delay]]: with an unchanged value nothing runs; otherwise the
    cleanup clears the pending timer and the effect arms a new one. *)
Definition render (now delay v : Z) (h : hook) : hook :=
  if bool_decide (v = value h) then h
  else mkHook v (debouncedValue h) (Some (now + delay, v)).

(** The timer fires: [setDebouncedValue(value)] with the captured value. *)
Definition fire (h : hook) : hook :=
  match handler h with
  | Some (_, v) => mkHook (value h) v None
  | None => h
  end.

(** Fire time of the pending timer, if it is due at [now]. *)
Definition due (now : Z) (h : hook) : option Z :=
  match handler h with
  | Some (t, _) => if t <=? now then Some t else None
  | None => None
  end.

(** [useColorsDivideAndConquer] holds two debounced values, both with a
    delay of 200 ms (lines 131-132); [generations] counts the runs of the
    effect that depends on them (line 201). *)
Definition delay : Z := 200.

Record controller := mkController {
  saturation : hook;
  lightness : hook;
  generations : nat
}.

(** Mounting runs the effect once. *)
Definition mount_controller (now s l : Z) : controller :=
  mkController (mount now delay s) (mount now delay l) 1.

(** A state update re-renders, and re-runs the effect, only when the
    debounced value really changes. *)
Definition bump (old new : hook) (n : nat) : nat :=
  if bool_decide (debouncedValue new = debouncedValue old) then n else S n.

Definition fire_saturation (c : controller) : controller :=
  let h := fire (saturation c) in
  mkController h (lightness c) (bump (saturation c) h (generations c)).

Definition fire_lightness (c : controller) : controller :=
  let h := fire (lightness c) in
  mkController (saturation c) h (bump (lightness c) h (generations c)).

(** Let the clock reach [now]: timers that are due fire, the earlier one
    first, each in a task of its own and each followed by its own render.
    When the callbacks of two timers run before React renders, React
    renders once for both, and the effect runs once where [generations]
    counts two: with both timers due, [generations] is an upper bound of
    the runs of the effect. *)
Definition advance (now : Z) (c : controller) : controller :=
  match due now (saturation c), due now (lightness c) with
  | Some ts, Some tl =>
      if ts <=? tl then fire_lightness (fire_saturation c)
      else fire_saturation (fire_lightness c)
  | Some _, None => fire_saturation c
  | None, Some _ => fire_lightness c
  | None, None => c
  end.

(** The context updates of [App]: [setSaturation] and [setLightness]. *)
Inductive event :=
| SetSaturation (v : Z)
| SetLightness (v : Z).

Definition handle (now : Z) (ev : event) (c : controller) : controller :=
  let c' := advance now c in
  match ev with
  | SetSaturation v =>
      mkController (render now delay v (saturation c')) (lightness c')
        (generations c')
  | SetLightness v =>
      mkController (saturation c') (render now delay v (lightness c'))
        (generations c')
  end.

(** Timestamped updates, played in order. *)
Definition play (evs : list (Z * event)) (c : controller) : controller :=
  foldl (fun acc te => handle te.1 te.2 acc) c evs.

(** No further update arrives: what is pending fires. *)
Definition latest (c : controller) : Z :=
  match handler (saturation c), handler (lightness c) with
  | Some (ts, _), Some (tl, _) => Z.max ts tl
  | Some (ts, _), None => ts
  | None, Some (tl, _) => tl
  | None, None => 0
  end.

Definition quiesce (c : controller) : controller := advance (latest c) c.

(** Updates that follow one another by less than the delay, the first at
    or after [prev]. *)
Fixpoint burst (prev : Z) (evs : list (Z * event)) : Prop :=
  match evs with
  | [] => True
  | (t, _) :: evs' => prev <= t ∧ t - prev < delay ∧ burst t evs'
  end.

(** The two debounced values, and what an update is about. *)
Inductive scalar := Saturation | Lightness.

Definition target (ev : event) : scalar :=
  match ev with
  | SetSaturation _ => Saturation
  | SetLightness _ => Lightness
  end.

Definition new_value (ev : event) : Z :=
  match ev with SetSaturation v | SetLightness v => v end.

Definition hook_of (s : scalar) (c : controller) : hook :=
  match s with
  | Saturation => saturation c
  | Lightness => lightness c
  end.

Definition other (s : scalar) : scalar :=
  match s with
  | Saturation => Lightness
  | Lightness => Saturation
  end.

(** Updates of the scalar [s] only, each to a value other than the one
    before it. *)
Fixpoint changes_of (s : scalar) (cur : Z) (evs : list (Z * event)) : Prop :=
  match evs with
  | [] => True
  | (_, ev) :: evs' =>
      target ev = s ∧ new_value ev ≠ cur ∧ changes_of s (new_value ev) evs'
  end.

(** Nothing pending and nothing to catch up with. *)
Definition at_rest (c : controller) : Prop :=
  handler (saturation c) = None ∧ handler (lightness c) = None ∧
  debouncedValue (saturation c) = value (saturation c) ∧
  debouncedValue (lightness c) = value (lightness c).

(** The value and the time a list of updates ends on. *)
Definition final_value (cur : Z) (evs : list (Z * event)) : Z :=
  foldl (fun _ te => new_value te.2) cur evs.

Definition final_time (t : Z) (evs : list (Z * event)) : Z :=
  foldl (fun _ te => te.1) t evs.

(** In the middle of a burst of changes of [s]: the timer armed by the last
    change, at time [t] to value [v], is pending; nothing else has moved
    since the controller [c] was at rest. *)
Definition armed (s : scalar) (c : controller) (t v : Z) (c' : controller)
  : Prop :=
  hook_of s c' = mkHook v (debouncedValue (hook_of s c)) (Some (t + delay, v)) ∧
  hook_of (other s) c' = hook_of (other s) c ∧
  generations c' = generations c.

End Debounce.

(** ** Notions used to state the properties of the engine *)

Module Measure.
Import Engine.

(** The interval a suspended call works on. *)
Definition interval_of (t : proc) : option (Z * Z) :=
  match t with
  | AwaitStart s e _ | AwaitEnd s e _ _ => Some (s, e)
  | _ => None
  end.

(** An upper bound on the steps a call on an interval of width [e - s] can
    still take: four per call (two answers, two continuations), and a split
    of width [d] leaves widths that add up to [d - 1]. *)
Definition budget (s e : Z) : Z := 4 * (2 * Z.max 0 (e - s) + 1).

Fixpoint potential (t : proc) : Z :=
  match t with
  | AwaitStart s e InFlight => budget s e
  | AwaitStart s e (Ready _) => budget s e - 1
  | AwaitEnd s e _ InFlight => budget s e - 2
  | AwaitEnd s e _ (Ready _) => budget s e - 3
  | Join l r => potential l + potential r
  | Done | Failed => 0
  end.

(** The launcher adds its own continuation. *)
Definition gen_potential (G : generation) : Z :=
  potential (root G) + (if awaiting_roots G then 1 else 0).

End Measure.

Module Progress.
Import Engine.

(** Some call of the tree is still suspended on a sample. *)
Fixpoint live (t : proc) : bool :=
  match t with
  | AwaitStart _ _ _ | AwaitEnd _ _ _ _ => true
  | Join l r => live l || live r
  | Done | Failed => false
  end.

(** An action is possible. *)
Definition enabled (g : nat) (Gσ : generation * shared) : Prop :=
  ∃ a Gσ', gen_step g a Gσ = Some Gσ'.

End Progress.

(** Runs in which the colour API gives every hue the same name. *)
Module Uniform.
Import Engine.

(** The answers of a run all carry the name [X], and none fails. *)
Definition uniform_action (X : string) (a : action) : Prop :=
  match a with
  | Resolve _ data => name_value data = X
  | Reject _ => False
  | Resume _ | Settle => True
  end.

(** Where a root call on [s, e] can be when it only met the name [X]. *)
Definition stage (X : string) (s e : Z) (t : proc) : Prop :=
  match t with
  | AwaitStart s' e' InFlight => s' = s ∧ e' = e
  | AwaitStart s' e' (Ready c) => s' = s ∧ e' = e ∧ name_value c = X
  | AwaitEnd s' e' c InFlight => s' = s ∧ e' = e ∧ name_value c = X
  | AwaitEnd s' e' c (Ready d) =>
      s' = s ∧ e' = e ∧ name_value c = X ∧ name_value d = X
  | Done => True
  | Join _ _ | Failed => False
  end.

(** Requests a root call can have issued by then. *)
Definition requests (t : proc) : nat :=
  match t with
  | AwaitStart _ _ _ => 1
  | _ => 2
  end.

Definition returned (t : proc) : bool :=
  match t with Done => true | _ => false end.

(** The endpoints of the two root searches. *)
Definition endpoints : list Z := [0; 359 `div` 2; 359 `div` 2 + 1; 359].

(** What holds of generation [g] all along such a run; [pre] is the log
    of requests before the generation started. *)
Definition inv (X : string) (g : nat) (pre : list (nat * Z))
    (Gσ : generation * shared) : Prop :=
  cancelled Gσ.1 = false ∧
  map_Forall (fun _ c => name_value c = X) (cache Gσ.2) ∧
  ∃ l r new,
    root Gσ.1 = Join l r ∧
    stage X 0 (359 `div` 2) l ∧ stage X (359 `div` 2 + 1) 359 r ∧
    calls Gσ.2 = pre ++ new ∧
    (length new ≤ requests l + requests r)%nat ∧
    (∀ c, c ∈ new → c.1 = g ∧ c.2 ∈ endpoints) ∧
    if returned l || returned r
    then ∃ c, colors Gσ.2 = [c] ∧ name_value c = X ∧ seen Gσ.1 = {[ X ]}
    else colors Gσ.2 = [] ∧ seen Gσ.1 = ∅.

(** The effect of one step of a root call on what the other one sees. *)
Definition root_step (X : string) (g : nat) (e : Z) (t t' : proc)
    (Gσ Gσ' : generation * shared) : Prop :=
  cancelled Gσ'.1 = false ∧
  map_Forall (fun _ c => name_value c = X) (cache Gσ'.2) ∧
  returned t = false ∧
  (∃ extra, calls Gσ'.2 = calls Gσ.2 ++ extra ∧
     (length extra + requests t ≤ requests t')%nat ∧
     ∀ c, c ∈ extra → c = (g, e)) ∧
  if returned t'
  then ∃ c, name_value c = X ∧ Gσ' = addColorIfUnique c Gσ
  else colors Gσ'.2 = colors Gσ.2 ∧ seen Gσ'.1 = seen Gσ.1.

End Uniform.

(** Which call may still request which hue. *)
Module Ownership.
Import Engine.

(** The hue a call has a request in flight for. *)
Definition waiting_for (t : proc) : option Z :=
  match t with
  | AwaitStart s _ InFlight => Some s
  | AwaitEnd _ e _ InFlight => Some e
  | _ => None
  end.

(** Every hue of [s, e] that generation [g] has requested so far is in the
    cache, unless it is the one the call on [s, e] is waiting for. *)
Definition answered (g : nat) (σ : shared) (s e : Z) (waiting : option Z)
  : Prop :=
  ∀ h, s ≤ h ≤ e → h ∈ calls_of g σ →
       is_Some (cache σ !! h) ∨ waiting = Some h.

(** The suspended calls of a tree work on disjoint intervals laid out from
    left to right inside [lo, hi], and each accounts for its own. *)
Fixpoint owns (g : nat) (σ : shared) (lo hi : Z) (t : proc) : Prop :=
  match t with
  | AwaitStart s e _ | AwaitEnd s e _ _ =>
      lo ≤ s ∧ s ≤ e ∧ e ≤ hi ∧ answered g σ s e (waiting_for t)
  | Join l r =>
      ∃ m, lo - 1 ≤ m ≤ hi ∧ owns g σ lo m l ∧ owns g σ (m + 1) hi r
  | Done | Failed => True
  end.

(** How a step inside [lo, hi] may change the shared state. *)
Definition extends (g : nat) (lo hi : Z) (σ σ' : shared) : Prop :=
  (∀ h, is_Some (cache σ !! h) → is_Some (cache σ' !! h)) ∧
  (∀ h, h ∈ calls_of g σ' → h ∈ calls_of g σ ∨ lo ≤ h ≤ hi) ∧
  NoDup (calls_of g σ').

End Ownership.

(** What a step of a generation shows to the outside. *)
Module Visible.
Import Engine.

(** The two React states and the closure's [seen] and [cancelled] are
    as before. *)
Definition quiet (Gσ Gσ' : generation * shared) : Prop :=
  colors Gσ'.2 = colors Gσ.2 ∧ loading Gσ'.2 = loading Gσ.2 ∧
  seen Gσ'.1 = seen Gσ.1 ∧ cancelled Gσ'.1 = cancelled Gσ.1.

End Visible.

(** Runs of the whole hook, with generations superseding one another. *)
Module Hook.
Import Engine Ownership.

(** What a step of generation [g] can do to the shared state and to its own
    flag: the flag stays, the cache only gains entries, and the requests
    added are made in the name of [g]. *)
Definition effects (g : nat) (Gσ Gσ' : generation * shared) : Prop :=
  cancelled Gσ'.1 = cancelled Gσ.1 ∧
  (∀ h, is_Some (cache Gσ.2 !! h) → is_Some (cache Gσ'.2 !! h)) ∧
  ∃ extra, calls Gσ'.2 = calls Gσ.2 ++ extra ∧ ∀ c, c ∈ extra → c.1 = g.

(** What holds of every world the hook can reach: requests are logged in
    the name of generations that exist; every generation but the last one
    started is cancelled; and the last one has requested no hue twice and
    keeps its calls on disjoint intervals. *)
Definition well_run (w : world) : Prop :=
  (∀ c, c ∈ calls (hook w) → (c.1 < length (gens w))%nat) ∧
  (∀ g G, gens w !! g = Some G → (S g < length (gens w))%nat →
          cancelled G = true) ∧
  (∀ g G, gens w !! g = Some G → S g = length (gens w) →
          cancelled G = false ∧
          NoDup (calls_of g (hook w)) ∧ owns g (hook w) 0 359 (root G)).

End Hook.

(** ** Further parts of the source *)

(** [clamp] (App.jsx 32-34): [Math.min(Math.max(value, min), max)], on
    integers; [App] calls it with the default bounds 0 and 100. *)
Definition clamp (value min max : Z) : Z := Z.min (Z.max value min) max.

#[global] Instance h_le_transitive : Transitive h_le.
Proof. intros a b c. unfold h_le. lia. Qed.

Module DebounceState.
Import Debounce.

(** What [useDebounce] keeps between renders: a pending timer carries the
    value last rendered, and without a pending timer the debounced value is
    the value last rendered. *)
Definition caught_up (h : hook) : Prop :=
  match handler h with
  | Some (_, v) => v = value h
  | None => debouncedValue h = value h
  end.

(** A timer is pending whose firing will change the debounced value. *)
Definition owed (h : hook) : nat :=
  match handler h with
  | Some (_, v) => if bool_decide (v = debouncedValue h) then 0 else 1
  | None => 0
  end.

#[global] Instance scalar_eq_dec : EqDecision scalar.
Proof. solve_decision. Defined.

(** The last value a list of updates gives to the scalar [s], starting from
    [cur]. *)
Definition last_value (s : scalar) (cur : Z) (evs : list (Z * event)) : Z :=
  foldl (fun acc te => if bool_decide (target te.2 = s)
                       then new_value te.2 else acc) cur evs.

(** Both hooks are caught up and hold the given values. *)
Definition holding (vs vl : Z) (c : controller) : Prop :=
  caught_up (saturation c) ∧ caught_up (lightness c) ∧
  value (saturation c) = vs ∧ value (lightness c) = vl.

(** Generations created so far and still to come from the pending timers. *)
Definition pending_total (c : controller) : nat :=
  (generations c + owed (saturation c) + owed (lightness c))%nat.

End DebounceState.

#[global] Instance Color_eq_dec : EqDecision Color.
Proof. solve_decision. Defined.

(** Runs of one generation against a colour API that is a function of the
    hue (for the generation's context). *)
Module Sampled.
Import Engine.

(** The task at a position of the tree. *)
Fixpoint leaf_at (p : path) (t : proc) : option proc :=
  match p, t with
  | [], _ => Some t
  | false :: p', Join l _ => leaf_at p' l
  | true :: p', Join _ r => leaf_at p' r
  | _, _ => None
  end.

(** The hue the task at [p] has a request in flight for. *)
Definition awaited (p : path) (t : proc) : option Z :=
  match leaf_at p t with
  | Some u => Ownership.waiting_for u
  | None => None
  end.

(** An answer is the one [f] gives for the hue that was asked. *)
Definition answers (f : Z → Color) (a : action) (Gσ : generation * shared)
  : bool :=
  match a with
  | Resolve p data =>
      match awaited p (root Gσ.1) with
      | Some h => bool_decide (data = f h)
      | None => true
      end
  | Reject _ | Resume _ | Settle => true
  end.

(** Every answer of the run is. *)
Fixpoint sampled_run (f : Z → Color) (g : nat) (acts : list action)
    (Gσ : generation * shared) : bool :=
  match acts with
  | [] => true
  | a :: acts' =>
      answers f a Gσ &&
      match gen_step g a Gσ with
      | Some Gσ' => sampled_run f g acts' Gσ'
      | None => true
      end
  end.

(** The names of [f] come in runs on [lo, hi]: two hues with the same name
    have that name all the way between them.  This is what the README
    assumes of the colour API. *)
Definition contiguous (f : Z → Color) (lo hi : Z) : Prop :=
  ∀ a b c, lo ≤ a → a ≤ b → b ≤ c → c ≤ hi →
    name_value (f a) = name_value (f c) →
    name_value (f b) = name_value (f a).

(** The tree over [lo, hi]: suspended calls sit on adjoining intervals that
    make up [lo, hi] and hold samples of [f]; a call that has returned has
    recorded every name of its interval in [names], provided the names come
    in runs there. *)
Fixpoint tracks (f : Z → Color) (names : gset string) (lo hi : Z) (t : proc)
  : Prop :=
  match t with
  | AwaitStart s e w =>
      s = lo ∧ e = hi ∧ lo ≤ hi ∧
      match w with Ready c => c = f s | InFlight => True end
  | AwaitEnd s e colorStart w =>
      s = lo ∧ e = hi ∧ lo ≤ hi ∧ colorStart = f s ∧
      match w with Ready c => c = f e | InFlight => True end
  | Join l r =>
      ∃ m, lo ≤ m ∧ m < hi ∧
           tracks f names lo m l ∧ tracks f names (m + 1) hi r
  | Done =>
      contiguous f lo hi → ∀ h, lo ≤ h ≤ hi → name_value (f h) ∈ names
  | Failed => True
  end.

(** What a live generation keeps, apart from its tree: the cache and the
    list hold samples of [f] for hues of the domain, and [seen] is the set
    of names in the list. *)
Definition kept (f : Z → Color) (Gσ : generation * shared) : Prop :=
  cancelled Gσ.1 = false ∧
  (∀ h c, cache Gσ.2 !! h = Some c → c = f h) ∧
  Aggregator.wf (Aggregator.mk (seen Gσ.1) (colors Gσ.2)) ∧
  (∀ c, c ∈ colors Gσ.2 → ∃ h, 0 ≤ h ≤ 359 ∧ c = f h).

Definition sampled_inv (f : Z → Color) (Gσ : generation * shared) : Prop :=
  kept f Gσ ∧
  ∃ l r, root Gσ.1 = Join l r ∧
         tracks f (seen Gσ.1) 0 179 l ∧ tracks f (seen Gσ.1) 180 359 r.

End Sampled.

(** The hues a search can ask for. *)
Module Range.
Import Engine.

(** Every suspended call of the tree works on an interval within
    [lo, hi]. *)
Fixpoint inside (lo hi : Z) (t : proc) : Prop :=
  match t with
  | AwaitStart s e _ | AwaitEnd s e _ _ => lo ≤ s ∧ s ≤ e ∧ e ≤ hi
  | Join l r => inside lo hi l ∧ inside lo hi r
  | Done | Failed => True
  end.

Definition calls_inside (lo hi : Z) (σ : shared) : Prop :=
  ∀ c, c ∈ calls σ → lo ≤ c.2 ≤ hi.

Definition in_domain (w : world) : Prop :=
  calls_inside 0 359 (hook w) ∧
  ∀ g G, gens w !! g = Some G → inside 0 359 (root G).

End Range.

(** What the renderer is given. *)
Module Shown.
Import Engine.

(** Before the first generation nothing is shown; afterwards the list holds
    what the last generation has seen, and [loading] is on exactly while its
    launcher is suspended, which it is unless every call has returned. *)
Definition shown (w : world) : Prop :=
  (gens w = [] → colors (hook w) = [] ∧ loading (hook w) = false) ∧
  ∀ g G, gens w !! g = Some G → S g = length (gens w) →
    Aggregator.wf (Aggregator.mk (seen G) (colors (hook w))) ∧
    loading (hook w) = awaiting_roots G ∧
    (awaiting_roots G = false → settle (root G) = Fulfilled).

(** What a step of a task leaves as it is. *)
Definition steady (Gσ y : generation * shared) : Prop :=
  Aggregator.wf (Aggregator.mk (seen y.1) (colors y.2)) ∧
  loading y.2 = loading Gσ.2 ∧
  awaiting_roots y.1 = awaiting_roots Gσ.1.

End Shown.

(** ** The other strategy: [useColorsParallel] *)

Module Parallel.

(** A result of [useQueries], as far as the hook reads it: [isLoading] and
    [data] ([None] for [undefined]). *)
Record query := mkQuery {
  isLoading : bool;
  data : option Color
}.

Section ColorMap.

(** [colorMap] starts as [{}], so [colorMap[name]] is also truthy for the
    names it inherits from [Object.prototype] (["constructor"],
    ["toString"], ...).  That table is not part of the source: it is taken
    as given. *)
Variable inherited : string → bool.

(** One round of the [forEach] (App.jsx 103-107). *)
Definition record (colorMap : gmap string Color) (color : query)
  : gmap string Color :=
  if isLoading color then colorMap
  else match data color with
       | None => colorMap
       | Some d =>
           if inherited (name_value d) then colorMap
           else match colorMap !! name_value d with
                | Some _ => colorMap
                | None => <[name_value d := d]> colorMap
                end
       end.

(** The memoised map and the flag returned by the hook (lines 99-113). *)
Definition colorsUnique (colorData : list query) : gmap string Color :=
  foldl record ∅ colorData.

Definition useColorsParallel (colorData : list query)
  : gmap string Color * bool :=
  (colorsUnique colorData, existsb isLoading colorData).

End ColorMap.

(** The colour of a query that has loaded one named [name]. *)
Definition loaded_as (name : string) (color : query) : option Color :=
  if isLoading color then None
  else match data color with
       | Some d => if bool_decide (name_value d = name) then Some d else None
       | None => None
       end.

(** The first such colour in the order of the queries, that is, of the
    hues. *)
Fixpoint first_named (name : string) (colorData : list query) : option Color :=
  match colorData with
  | [] => None
  | color :: rest =>
      match loaded_as name color with
      | Some d => Some d
      | None => first_named name rest
      end
  end.

(** All 360 queries answered by [f]. *)
Definition all_loaded (f : Z → Color) : list query :=
  (fun h => mkQuery false (Some (f h))) <$> seqZ 0 360.

End Parallel.

(** ** The mounted hook in the browser: [fetch] and unmounting *)

Module Instance.
Import Engine.

(** [fetchColor] hands [abortController.signal] to [fetch] (lines 21, 147)
    and the cleanup aborts the controller (line 199): the promise of a
    request made for a cancelled generation is rejected with the abort
    reason, whatever the colour API sends.  [Engine.step] lets any request
    be answered; here an answer for a request of a cancelled generation is
    delivered as the rejection that [fetch] makes of it. *)
Definition fetch_outcome (G : generation) (a : action) : action :=
  match a with
  | Resolve p _ => if cancelled G then Reject p else a
  | Reject _ | Resume _ | Settle => a
  end.

(** What happens to a mounted hook: a step of the engine, or React unmounts
    the component. *)
Inductive event :=
| Step (l : label)
| Unmount.

(** The hook and whether React has unmounted it. *)
Record t := mk {
  world : Engine.world;
  disposed : bool
}.

(** The cleanup of the last effect run (lines 197-200), which React also
    runs on unmount, with no effect body after it. *)
Definition cleanup (w : Engine.world) : Engine.world :=
  mkWorld (hook w) (alter set_cancelled (pred (length (gens w))) (gens w)).

(** After unmounting no effect runs again, but the calls that are suspended
    are still resumed by the runtime. *)
Definition step (ev : event) (i : t) : option t :=
  match ev with
  | Step (Act g a) =>
      match gens (world i) !! g with
      | Some G =>
          match Engine.step (Act g (fetch_outcome G a)) (world i) with
          | Some w' => Some (mk w' (disposed i))
          | None => None
          end
      | None => None
      end
  | Step (NewGeneration ctx) =>
      if disposed i then None
      else Some (mk (new_generation ctx (world i)) false)
  | Unmount =>
      if disposed i then None else Some (mk (cleanup (world i)) true)
  end.

Fixpoint run (evs : list event) (i : t) : option t :=
  match evs with
  | [] => Some i
  | ev :: evs' =>
      match step ev i with
      | Some i' => run evs' i'
      | None => None
      end
  end.

Definition initial : t := mk unmounted false.

(** What holds of every state of a hook instance: while it is mounted, what
    holds of the engine's worlds; once unmounted, every generation is
    cancelled. *)
Definition inv (i : t) : Prop :=
  if disposed i
  then ∀ g G, gens (world i) !! g = Some G → cancelled G = true
  else Hook.well_run (world i).

End Instance.

(** * Properties *)

(** ** The aggregator *)

Section AggregatorFacts.
Import Aggregator.

Lemma addColorIfUnique_seen (c : Color) (a : t) :
  name_value c ∈ seen a → addColorIfUnique c a = a.
Proof.
  intros Hin. unfold addColorIfUnique. by rewrite bool_decide_eq_true_2.
Qed.

Lemma addColorIfUnique_fresh (c : Color) (a : t) :
  name_value c ∉ seen a →
  addColorIfUnique c a =
    mk ({[ name_value c ]} ∪ seen a) (colors a ++ [c]).
Proof.
  intros Hnin. unfold addColorIfUnique. by rewrite bool_decide_eq_false_2.
Qed.

Lemma addColorIfUnique_records (c : Color) (a : t) :
  name_value c ∈ seen (addColorIfUnique c a).
Proof.
  destruct (decide (name_value c ∈ seen a)) as [Hin|Hnin].
  - by rewrite addColorIfUnique_seen.
  - rewrite addColorIfUnique_fresh by done. set_solver.
Qed.

Lemma wf_empty : wf empty.
Proof.
  split; [constructor|]. intros n. cbn. set_solver.
Qed.

Lemma wf_addColorIfUnique (c : Color) (a : t) :
  wf a → wf (addColorIfUnique c a).
Proof.
  intros [Hnd Hseen].
  destruct (decide (name_value c ∈ seen a)) as [Hin|Hnin].
  - rewrite addColorIfUnique_seen by done. by split.
  - rewrite addColorIfUnique_fresh by done. split; cbn.
    + rewrite fmap_app. cbn. apply NoDup_app. split_and!; [done| |].
      * intros n Hn Hc. apply list_elem_of_singleton in Hc as ->.
        by apply Hnin, Hseen.
      * apply NoDup_singleton.
    + intros n. rewrite fmap_app, elem_of_app, elem_of_union, Hseen.
      cbn. rewrite elem_of_singleton, list_elem_of_singleton. tauto.
Qed.

Lemma wf_emit_all (cs : list Color) (a : t) : wf a → wf (emit_all cs a).
Proof.
  revert a. induction cs as [|c cs IH]; intros a Ha; [done|].
  cbn. apply IH. by apply wf_addColorIfUnique.
Qed.

(** What has been emitted once stays. *)
Lemma addColorIfUnique_colors_prefix (c : Color) (a : t) :
  colors a `prefix_of` colors (addColorIfUnique c a).
Proof.
  unfold addColorIfUnique. case_bool_decide; cbn; [done|].
  by apply prefix_app_r.
Qed.

End AggregatorFacts.

(** C8.  [addColorIfUnique] is idempotent with respect to the identity: after
    any sequence of insertions into an empty aggregator, no name occurs twice
    among the colours held, inserting the same colour twice is the same as
    inserting it once, and inserting a colour whose name is already held
    changes nothing. *)
Theorem addColorIfUnique_idempotent (cs : list Color) (c : Color) :
  let a := Aggregator.emit_all cs Aggregator.empty in
  name_value c ∈ (name_value <$> Aggregator.colors a) →
  Aggregator.addColorIfUnique c a = a ∧
  NoDup (name_value <$> Aggregator.colors a) ∧
  (∀ d a', Aggregator.addColorIfUnique d (Aggregator.addColorIfUnique d a')
           = Aggregator.addColorIfUnique d a') ∧
  (∀ d, NoDup (name_value <$>
          Aggregator.colors (Aggregator.addColorIfUnique d a))).
Proof.
  intros a Hin.
  assert (Hwf : Aggregator.wf a) by apply wf_emit_all, wf_empty.
  split_and!.
  - apply addColorIfUnique_seen. by apply Hwf.
  - apply Hwf.
  - intros d a'. apply addColorIfUnique_seen, addColorIfUnique_records.
  - intros d. by apply wf_addColorIfUnique.
Qed.

Lemma addColorIfUnique_idempotent_witness :
  let red := mkColor "Red" 0 "#FF0000" in
  let again := mkColor "Red" 3 "#FF0D00" in
  let a := Aggregator.emit_all [red; mkColor "Lime" 120 "#00FF00"]
             Aggregator.empty in
  Aggregator.addColorIfUnique again a = a ∧
  NoDup (name_value <$> Aggregator.colors a).
Proof.
  intros red again a.
  destruct (addColorIfUnique_idempotent
              [red; mkColor "Lime" 120 "#00FF00"] again) as (H1 & H2 & _).
  - vm_compute. apply list_elem_of_here.
  - split; [exact H1 | exact H2].
Defined.

(** ** The read side *)

Section SortedFacts.

Lemma insert_by_h_perm (c : Color) (l : list Color) :
  insert_by_h c l ≡ₚ c :: l.
Proof.
  induction l as [|d l IH]; cbn; [done|].
  destruct (hsl_h d <=? hsl_h c); [|done].
  rewrite IH. apply Permutation_swap.
Qed.

Lemma insert_by_h_head (c d : Color) (l : list Color) :
  h_le d c → HdRel h_le d l → HdRel h_le d (insert_by_h c l).
Proof.
  intros Hdc Hhd. destruct l as [|x l]; cbn.
  - by constructor.
  - destruct (hsl_h x <=? hsl_h c); constructor; [|done].
    by inversion Hhd.
Qed.

Lemma insert_by_h_sorted (c : Color) (l : list Color) :
  Sorted h_le l → Sorted h_le (insert_by_h c l).
Proof.
  induction 1 as [|d l Hs IH Hhd]; cbn.
  - repeat constructor.
  - destruct (Z.leb_spec (hsl_h d) (hsl_h c)) as [Hle|Hlt].
    + constructor; [done|]. by apply insert_by_h_head.
    + constructor; [by constructor|]. constructor. unfold h_le. lia.
Qed.

Lemma sort_from_sorted (acc l : list Color) :
  Sorted h_le acc →
  Sorted h_le (foldl (fun acc c => insert_by_h c acc) acc l).
Proof.
  revert acc. induction l as [|c l IH]; intros acc Hacc; cbn; [done|].
  by apply IH, insert_by_h_sorted.
Qed.

Lemma sort_from_perm (acc l : list Color) :
  foldl (fun acc c => insert_by_h c acc) acc l ≡ₚ acc ++ l.
Proof.
  revert acc. induction l as [|c l IH]; intros acc; cbn.
  - by rewrite app_nil_r.
  - rewrite IH, insert_by_h_perm. cbn. apply Permutation_middle.
Qed.

End SortedFacts.

(** ** One invocation of [findIntervals] *)

Section InvocationFacts.
Import Engine Measure.

Lemma settle_join (l r : proc) :
  settle (Join l r) = Fulfilled ↔ settle l = Fulfilled ∧ settle r = Fulfilled.
Proof.
  cbn. destruct (settle l), (settle r); split; try done; by intros [? ?].
Qed.

Lemma midpoint_floor (s e : Z) :
  2 * midpoint s e ≤ s + e < 2 * midpoint s e + 2.
Proof.
  unfold midpoint. pose proof (Z.div_mod (s + e) 2).
  pose proof (Z.mod_pos_bound (s + e) 2). lia.
Qed.

Lemma findIntervals_interval (g : nat) (s e : Z) (σ : shared) :
  interval_of (findIntervals g s e σ).1 = Some (s, e).
Proof. unfold findIntervals. by destruct (getColor g s σ). Qed.

Lemma getColor_keeps (g : nat) (hue : Z) (σ : shared) :
  colors (getColor g hue σ).2 = colors σ ∧
  loading (getColor g hue σ).2 = loading σ ∧
  cache (getColor g hue σ).2 = cache σ.
Proof. unfold getColor. by destruct (cache σ !! hue). Qed.

Lemma findIntervals_keeps (g : nat) (s e : Z) (σ : shared) :
  colors (findIntervals g s e σ).2 = colors σ ∧
  loading (findIntervals g s e σ).2 = loading σ ∧
  cache (findIntervals g s e σ).2 = cache σ.
Proof.
  unfold findIntervals. pose proof (getColor_keeps g s σ).
  by destruct (getColor g s σ).
Qed.


End InvocationFacts.



(** ** Termination of the search *)

Section TerminationFacts.
Import Engine Measure Progress.

Lemma budget_pos (s e : Z) : 4 ≤ budget s e.
Proof. unfold budget. lia. Qed.

Lemma potential_nonneg (t : proc) : 0 ≤ potential t.
Proof.
  induction t as [s e [|c]|s e c0 [|c]|l IHl r IHr| |]; cbn;
    try pose proof (budget_pos s e); lia.
Qed.

Lemma findIntervals_potential (g : nat) (s e : Z) (σ : shared) :
  potential (findIntervals g s e σ).1 ≤ budget s e.
Proof.
  unfold findIntervals, getColor.
  destruct (cache σ !! s); cbn; lia.
Qed.

(** A split hands out strictly less than the caller still had. *)
Lemma budget_split (s e : Z) :
  1 < e - s →
  budget s (midpoint s e) + budget (midpoint s e + 1) e < budget s e - 3.
Proof.
  intros Hwide. pose proof (midpoint_floor s e). unfold budget. lia.
Qed.

Lemma decide_interval_potential g s e cs ce Gσ :
  potential (decide_interval g s e cs ce Gσ).1 < budget s e - 3.
Proof.
  unfold decide_interval. pose proof (budget_pos s e).
  destruct (cancelled Gσ.1); [cbn; lia|].
  case_bool_decide; [cbn; lia|].
  destruct (Z.leb_spec (e - s) 1) as [Hle|Hgt]; [cbn; lia|].
  pose proof (findIntervals_potential g s (midpoint s e) Gσ.2) as Hl.
  destruct (findIntervals g s (midpoint s e) Gσ.2) as [l σ1].
  pose proof (findIntervals_potential g (midpoint s e + 1) e σ1) as Hr.
  destruct (findIntervals g (midpoint s e + 1) e σ1) as [r σ2].
  pose proof (budget_split s e Hgt). cbn in *. lia.
Qed.

Lemma resume_potential g Gσ t t' Gσ' :
  resume g Gσ t = Some (t', Gσ') → potential t' < potential t.
Proof.
  destruct t as [s e [|c]|s e c0 [|c]|l r| |]; cbn; try done.
  - destruct (getColor g e Gσ.2) as [[|d] σ']; intros [= <- <-]; cbn; lia.
  - intros [= Hd]. pose proof (decide_interval_potential g s e c0 c Gσ) as Hlt.
    by rewrite Hd in Hlt.
Qed.

Lemma resolve_potential data Gσ t t' Gσ' :
  resolve data Gσ t = Some (t', Gσ') → potential t' < potential t.
Proof.
  destruct t as [s e [|c]|s e c0 [|c]|l r| |]; cbn; try done;
    intros [= <- <-]; cbn; lia.
Qed.

Lemma reject_potential Gσ t t' Gσ' :
  reject Gσ t = Some (t', Gσ') → potential t' < potential t.
Proof.
  destruct t as [s e [|c]|s e c0 [|c]|l r| |]; cbn; try done;
    intros [= <- <-]; cbn; pose proof (budget_pos s e); lia.
Qed.

Lemma at_path_potential {S : Type} (p : path) (k : proc → option (proc * S))
    (t t' : proc) (x : S) :
  (∀ u u' y, k u = Some (u', y) → potential u' < potential u) →
  at_path p k t = Some (t', x) → potential t' < potential t.
Proof.
  intros Hk. revert t t'.
  induction p as [|b p IH]; intros t t'; cbn; [by apply Hk|].
  destruct b, t as [| |l r| |]; try done.
  - destruct (at_path p k r) as [[r' y]|] eqn:Hr; [|done].
    intros [= <- <-]. apply IH in Hr. cbn. lia.
  - destruct (at_path p k l) as [[l' y]|] eqn:Hl; [|done].
    intros [= <- <-]. apply IH in Hl. cbn. lia.
Qed.

Lemma on_task_potential p k Gσ Gσ' :
  (∀ u u' y, k Gσ u = Some (u', y) → potential u' < potential u) →
  (∀ u u' y, k Gσ u = Some (u', y) → awaiting_roots y.1 = awaiting_roots Gσ.1) →
  on_task p k Gσ = Some Gσ' → gen_potential Gσ'.1 < gen_potential Gσ.1.
Proof.
  intros Hk Hflag. unfold on_task.
  destruct (at_path p (k Gσ) (root Gσ.1)) as [[t' [G' σ']]|] eqn:Hat; [|done].
  intros [= <-]. unfold gen_potential. cbn.
  pose proof (at_path_potential _ _ _ _ _ (Hk) Hat) as Hlt.
  assert (awaiting_roots G' = awaiting_roots Gσ.1) as ->; [|lia].
  clear Hlt Hk. revert Hat. generalize (root Gσ.1) as t. revert t'.
  induction p as [|b p IH]; intros t' t; cbn.
  - intros Hkt. by apply Hflag in Hkt.
  - destruct b, t as [| |l r| |]; try done.
    + destruct (at_path p (k Gσ) r) as [[r' y]|] eqn:Hr; [|done].
      intros [= <- ->]. by eapply IH.
    + destruct (at_path p (k Gσ) l) as [[l' y]|] eqn:Hl; [|done].
      intros [= <- ->]. by eapply IH.
Qed.

Lemma decide_interval_flag g s e cs ce Gσ :
  awaiting_roots (decide_interval g s e cs ce Gσ).2.1 = awaiting_roots Gσ.1.
Proof.
  unfold decide_interval. destruct (cancelled Gσ.1); [done|].
  case_bool_decide; [done|]. destruct (e - s <=? 1); [done|].
  destruct (findIntervals g s (midpoint s e) Gσ.2) as [l σ1].
  by destruct (findIntervals g (midpoint s e + 1) e σ1) as [r σ2].
Qed.

(** Every step uses up some of the potential. *)
Lemma gen_step_potential g a Gσ Gσ' :
  gen_step g a Gσ = Some Gσ' → gen_potential Gσ'.1 < gen_potential Gσ.1.
Proof.
  destruct a as [p data|p|p|]; cbn.
  - apply on_task_potential; [apply resolve_potential|].
    intros [s e [|c]|s e c0 [|c]|l r| |] u' y; cbn; try done; by intros [= <- <-].
  - apply on_task_potential; [apply reject_potential|].
    intros [s e [|c]|s e c0 [|c]|l r| |] u' y; cbn; try done; by intros [= <- <-].
  - apply on_task_potential; [apply resume_potential|].
    intros [s e [|c]|s e c0 [|c]|l r| |] u' y; cbn; try done.
    + destruct (getColor g e Gσ.2); by intros [= <- <-].
    + intros [= Hd]. pose proof (decide_interval_flag g s e c0 c Gσ) as Hf.
      by rewrite Hd in Hf.
  - unfold settle_roots, gen_potential.
    destruct (awaiting_roots Gσ.1) eqn:Hflag; [|done].
    destruct (settle (root Gσ.1)); try done.
    intros [= <-]. cbn. lia.
Qed.

Lemma gen_potential_nonneg (G : generation) : 0 ≤ gen_potential G.
Proof.
  unfold gen_potential. pose proof (potential_nonneg (root G)).
  destruct (awaiting_roots G); lia.
Qed.

Lemma gen_run_bounded g acts Gσ Gσ' :
  gen_run g acts Gσ = Some Gσ' →
  Z.of_nat (length acts) ≤ gen_potential Gσ.1 - gen_potential Gσ'.1.
Proof.
  revert Gσ. induction acts as [|a acts IH]; intros Gσ; cbn.
  - intros [= ->]. lia.
  - destruct (gen_step g a Gσ) as [Gσ1|] eqn:Hstep; [|done].
    intros Hrun. apply IH in Hrun. apply gen_step_potential in Hstep. lia.
Qed.

(** A suspended call can always be moved on, by an answer of the colour
    API or by running its continuation. *)
Lemma live_step g (G : generation) (σ : shared) (t : proc) :
  live t = true →
  ∃ a t' Gσ',
    match a with
    | Resolve p data => at_path p (resolve data (G, σ)) t
    | Reject p => at_path p (reject (G, σ)) t
    | Resume p => at_path p (resume g (G, σ)) t
    | Settle => None
    end = Some (t', Gσ').
Proof.
  induction t as [s e [|c]|s e c0 [|c]|l IHl r IHr| |]; cbn; try done.
  - intros _. by exists (Reject []), Failed, (G, σ).
  - intros _. exists (Resume []). cbn. destruct (getColor g e σ); cbn; eauto.
  - intros _. by exists (Reject []), Failed, (G, σ).
  - intros _. exists (Resume []). cbn.
    destruct (decide_interval g s e c0 c (G, σ)); eauto.
  - intros [Hl|Hr]%orb_true_iff.
    + destruct (IHl Hl) as ([p d|p|p|] & t' & Gσ' & Hat); try done.
      * exists (Resolve (false :: p) d). cbn. rewrite Hat. eauto.
      * exists (Reject (false :: p)). cbn. rewrite Hat. eauto.
      * exists (Resume (false :: p)). cbn. rewrite Hat. eauto.
    + destruct (IHr Hr) as ([p d|p|p|] & t' & Gσ' & Hat); try done.
      * exists (Resolve (true :: p) d). cbn. rewrite Hat. eauto.
      * exists (Reject (true :: p)). cbn. rewrite Hat. eauto.
      * exists (Resume (true :: p)). cbn. rewrite Hat. eauto.
Qed.

Lemma live_enabled g (Gσ : generation * shared) :
  live (root Gσ.1) = true → enabled g Gσ.
Proof.
  destruct Gσ as [G σ]. cbn [fst]. intros Hlive.
  destruct (live_step g G σ _ Hlive) as ([p d|p|p|] & t' & [G' σ'] & Hat);
    try done.
  - exists (Resolve p d). unfold gen_step, on_task. cbn [fst snd]. rewrite Hat. eauto.
  - exists (Reject p). unfold gen_step, on_task. cbn [fst snd]. rewrite Hat. eauto.
  - exists (Resume p). unfold gen_step, on_task. cbn [fst snd]. rewrite Hat. eauto.
Qed.

End TerminationFacts.



(** ** A domain with a single name *)

Section UniformFacts.
Import Engine Uniform.
Context (X : string) (g : nat).

Lemma at_path_stage {S : Type} (p : path) (k : proc → option (proc * S))
    (s e : Z) (t : proc) (x : proc * S) :
  stage X s e t → at_path p k t = Some x → k t = Some x.
Proof.
  intros Hst. destruct p as [|b p]; [done|].
  by destruct b, t.
Qed.

Lemma getColor_resolved_names (hue : Z) (data : Color) (σ : shared) :
  name_value data = X →
  map_Forall (fun _ c => name_value c = X) (cache σ) →
  map_Forall (fun _ c => name_value c = X) (cache (getColor_resolved hue data σ)).
Proof. intros Hd Hc. by apply map_Forall_insert_2. Qed.

Lemma no_request (σ : shared) (e : Z) (n : nat) :
  ∃ extra : list (nat * Z),
    calls σ = calls σ ++ extra ∧
    (length extra + n ≤ n)%nat ∧ ∀ c, c ∈ extra → c = (g, e).
Proof.
  exists []. rewrite app_nil_r. split_and!; [done|cbn; lia|].
  intros c Hc. by apply elem_of_nil in Hc.
Qed.

Lemma resolve_stage (data : Color) (s e : Z) (t t' : proc)
    (Gσ Gσ' : generation * shared) :
  name_value data = X →
  cancelled Gσ.1 = false →
  map_Forall (fun _ c => name_value c = X) (cache Gσ.2) →
  stage X s e t →
  resolve data Gσ t = Some (t', Gσ') →
  stage X s e t' ∧ root_step X g e t t' Gσ Gσ'.
Proof.
  intros Hd Hlive Hcache Hst. pose proof (no_request Gσ.2 e) as Hextra.
  destruct t as [s' e' [|c]|s' e' c0 [|c]|l r| |]; cbn in *; try done;
    intros [= <- <-]; (split; [cbn; tauto|]); unfold root_step; cbn;
    split_and!; try done; by apply map_Forall_insert_2.
Qed.

Lemma resume_stage (s e : Z) (t t' : proc) (Gσ Gσ' : generation * shared) :
  cancelled Gσ.1 = false →
  map_Forall (fun _ c => name_value c = X) (cache Gσ.2) →
  stage X s e t →
  resume g Gσ t = Some (t', Gσ') →
  stage X s e t' ∧ root_step X g e t t' Gσ Gσ'.
Proof.
  intros Hlive Hcache Hst. pose proof (no_request Gσ.2 e) as Hextra.
  destruct t as [s' e' [|c]|s' e' c0 [|c]|l r| |]; cbn in *; try done.
  - destruct Hst as (-> & -> & Hc). unfold getColor.
    destruct (cache Gσ.2 !! e) as [d|] eqn:Hhit; intros [= <- <-]; cbn.
    + pose proof (map_Forall_lookup_1 _ _ _ _ Hcache Hhit) as Hd.
      split; [done|]. unfold root_step; cbn. split_and!; try done.
      destruct (Hextra 1%nat) as (extra & Hcalls & Hlen & Hin).
      exists extra. split_and!; [done|lia|done].
    + split; [done|]. unfold root_step; cbn. split_and!; try done.
      exists [(g, e)]. split_and!; [done|cbn; lia|].
      by intros c' ->%list_elem_of_singleton.
  - destruct Hst as (-> & -> & Hc0 & Hc). unfold decide_interval.
    rewrite Hlive, bool_decide_eq_true_2 by congruence.
    intros [= <- <-]. split; [done|]. unfold root_step; cbn.
    split_and!; try done. by eauto.
Qed.

(** Emitting a colour named [X] into an aggregator that is empty or holds
    one such colour leaves exactly one. *)
Lemma addColorIfUnique_uniform (c : Color) (Gσ : generation * shared)
    (before : bool) :
  name_value c = X →
  (if before
   then ∃ c0, colors Gσ.2 = [c0] ∧ name_value c0 = X ∧ seen Gσ.1 = {[ X ]}
   else colors Gσ.2 = [] ∧ seen Gσ.1 = ∅) →
  ∃ c1, colors (addColorIfUnique c Gσ).2 = [c1] ∧ name_value c1 = X ∧
        seen (addColorIfUnique c Gσ).1 = {[ X ]}.
Proof.
  intros Hc Hagg. unfold addColorIfUnique, Aggregator.addColorIfUnique. cbn.
  destruct before.
  - destruct Hagg as (c0 & Hcol & Hc0 & Hseen).
    rewrite bool_decide_eq_true_2 by (rewrite Hseen, Hc; set_solver).
    cbn. eauto.
  - destruct Hagg as (Hcol & Hseen).
    rewrite bool_decide_eq_false_2 by (rewrite Hseen; set_solver).
    cbn. rewrite Hcol, Hseen, Hc. exists c. split_and!; [done..|].
    apply (right_id_L ∅ (∪)).
Qed.

(** Putting a stepped root call back next to the other one. *)
Lemma inv_rebuild (pre : list (nat * Z)) (Gσ Gσ' : generation * shared)
    (l r l' r' : proc) (e : Z) (new : list (nat * Z)) (t t' : proc) :
  (t = l ∧ t' = l' ∧ r' = r ∧ e = 359 `div` 2) ∨
  (t = r ∧ t' = r' ∧ l' = l ∧ e = 359) →
  stage X 0 (359 `div` 2) l' → stage X (359 `div` 2 + 1) 359 r' →
  calls Gσ.2 = pre ++ new →
  (length new ≤ requests l + requests r)%nat →
  (∀ c, c ∈ new → c.1 = g ∧ c.2 ∈ endpoints) →
  (if returned l || returned r
   then ∃ c, colors Gσ.2 = [c] ∧ name_value c = X ∧ seen Gσ.1 = {[ X ]}
   else colors Gσ.2 = [] ∧ seen Gσ.1 = ∅) →
  root_step X g e t t' Gσ Gσ' →
  inv X g pre (set_root (Join l' r') Gσ'.1, Gσ'.2).
Proof.
  intros Hside Hl' Hr' Hcalls Hlen Hin Hagg
    (Hlive' & Hcache' & Hnot & (extra & Hcalls' & Hlen' & Hextra) & Hagg').
  split_and!; [done..|]. exists l', r', (new ++ extra). cbn.
  split_and!; [done..| | | |].
  - by rewrite Hcalls', Hcalls, (assoc_L (++)).
  - rewrite length_app.
    destruct Hside as [(-> & -> & -> & _)|(-> & -> & -> & _)]; lia.
  - intros c [Hc|Hc]%elem_of_app; [by apply Hin|].
    apply Hextra in Hc as ->. cbn. split; [done|].
    unfold endpoints.
    destruct Hside as [(_ & _ & _ & ->)|(_ & _ & _ & ->)].
    + apply list_elem_of_further, list_elem_of_here.
    + do 3 apply list_elem_of_further. apply list_elem_of_here.
  - assert (returned l || returned r = returned l' || returned r' ∨
            returned t' = true) as [Heq|Hret].
    { destruct (returned t') eqn:Ht'; [by right|left].
      destruct Hside as [(-> & -> & -> & _)|(-> & -> & -> & _)];
        by rewrite Hnot, Ht'. }
    + rewrite <- Heq.
      destruct (returned t') eqn:Ht'.
      * destruct Hagg' as (c & Hc & ->).
        destruct (addColorIfUnique_uniform c Gσ _ Hc Hagg) as (c1 & ? & ? & ?).
        assert (returned l || returned r = true) as ->; [|by eauto].
        rewrite Heq.
        destruct Hside as [(_ & -> & _ & _)|(_ & -> & _ & _)];
          rewrite Ht'; [done|apply orb_true_r].
      * destruct Hagg' as [-> ->]. done.
    + rewrite Hret in Hagg'. destruct Hagg' as (c & Hc & ->).
      destruct (addColorIfUnique_uniform c Gσ _ Hc Hagg) as (c1 & ? & ? & ?).
      assert (returned l' || returned r' = true) as ->; [|by eauto].
      destruct Hside as [(_ & -> & _ & _)|(_ & -> & _ & _)];
        rewrite Hret; [done|apply orb_true_r].
Qed.

Lemma start_generation_eq (ctx : Z * Z) (σ : shared) :
  start_generation g ctx σ =
    (mkGeneration ctx false ∅
       (Join (AwaitStart 0 179 InFlight) (AwaitStart 180 359 InFlight)) true,
     mkShared ∅ [] true ((calls σ ++ [(g, 0)]) ++ [(g, 180)])).
Proof. reflexivity. Qed.

(** The invariant holds when the generation starts ... *)
Lemma inv_start (ctx : Z * Z) (σ : shared) :
  inv X g (calls σ) (start_generation g ctx σ).
Proof.
  rewrite start_generation_eq.
  split_and!; [done|apply map_Forall_empty|].
  eexists _, _, [(g, 0); (g, 180)]. cbn.
  split_and!; try done.
  - by rewrite <- (assoc_L (++)).
  - unfold endpoints. intros c Hc.
    apply elem_of_cons in Hc as [->|Hc]; cbn.
    { split; [done|]. apply list_elem_of_here. }
    apply list_elem_of_singleton in Hc as ->. cbn.
    split; [done|]. do 2 apply list_elem_of_further. apply list_elem_of_here.
Qed.

(** ... and is kept by every step. *)
Lemma inv_step (pre : list (nat * Z)) (a : action)
    (Gσ Gσ' : generation * shared) :
  uniform_action X a → inv X g pre Gσ →
  gen_step g a Gσ = Some Gσ' → inv X g pre Gσ'.
Proof.
  intros Ha (Hlive & Hcache & l & r & new & Hroot & Hl & Hr & Hcalls & Hlen
             & Hin & Hagg).
  destruct a as [p d|p|p|]; cbn in Ha; [| done | |].
  - cbn. unfold on_task. rewrite Hroot.
    destruct p as [|[|] p]; cbn; [done| |].
    + destruct (at_path p (resolve d Gσ) r) as [[r' Gσ1]|] eqn:Hat; [|done].
      apply (at_path_stage _ _ _ _ _ _ Hr) in Hat.
      destruct (resolve_stage d _ _ _ _ _ _ Ha Hlive Hcache Hr Hat)
        as (Hr' & Hstep).
      destruct Gσ1 as [G1 σ1]. intros [= <-].
      eapply (inv_rebuild pre Gσ (G1, σ1) l r l r'); eauto 10.
    + destruct (at_path p (resolve d Gσ) l) as [[l' Gσ1]|] eqn:Hat; [|done].
      apply (at_path_stage _ _ _ _ _ _ Hl) in Hat.
      destruct (resolve_stage d _ _ _ _ _ _ Ha Hlive Hcache Hl Hat)
        as (Hl' & Hstep).
      destruct Gσ1 as [G1 σ1]. intros [= <-].
      eapply (inv_rebuild pre Gσ (G1, σ1) l r l' r); eauto 10.
  - cbn. unfold on_task. rewrite Hroot.
    destruct p as [|[|] p]; cbn; [done| |].
    + destruct (at_path p (resume g Gσ) r) as [[r' Gσ1]|] eqn:Hat; [|done].
      apply (at_path_stage _ _ _ _ _ _ Hr) in Hat.
      destruct (resume_stage _ _ _ _ _ _ Hlive Hcache Hr Hat) as (Hr' & Hstep).
      destruct Gσ1 as [G1 σ1]. intros [= <-].
      eapply (inv_rebuild pre Gσ (G1, σ1) l r l r'); eauto 10.
    + destruct (at_path p (resume g Gσ) l) as [[l' Gσ1]|] eqn:Hat; [|done].
      apply (at_path_stage _ _ _ _ _ _ Hl) in Hat.
      destruct (resume_stage _ _ _ _ _ _ Hlive Hcache Hl Hat) as (Hl' & Hstep).
      destruct Gσ1 as [G1 σ1]. intros [= <-].
      eapply (inv_rebuild pre Gσ (G1, σ1) l r l' r); eauto 10.
  - cbn. unfold settle_roots.
    destruct (awaiting_roots Gσ.1); [|done].
    destruct (settle (root Gσ.1)); try done.
    rewrite Hlive. intros [= <-]. cbn.
    split_and!; [done..|]. by exists l, r, new.
Qed.

Lemma inv_run (pre : list (nat * Z)) (acts : list action)
    (Gσ Gσ' : generation * shared) :
  Forall (uniform_action X) acts → inv X g pre Gσ →
  gen_run g acts Gσ = Some Gσ' → inv X g pre Gσ'.
Proof.
  intros Hacts. revert Gσ.
  induction Hacts as [|a acts Ha _ IH]; intros Gσ Hinv; cbn.
  - by intros [= <-].
  - destruct (gen_step g a Gσ) as [Gσ1|] eqn:Hstep; [|done].
    apply IH. by eapply inv_step.
Qed.

End UniformFacts.

(** C6.  When the colour API gives every hue the same name [X], a
    generation's search requests at most four colours, all among the
    endpoints 0, mid0, mid0 + 1 and 359 of the two root searches
    (mid0 = floor(359 / 2)), in every order in which answers arrive and calls
    are resumed; and once both root searches have returned the aggregator
    holds exactly one colour, named [X]. *)
Theorem uniform_domain_minimal (X : string) (g : nat) (ctx : Z * Z)
    (σ : Engine.shared) (acts : list Engine.action)
    (Gσ' : Engine.generation * Engine.shared) :
  Forall (Uniform.uniform_action X) acts →
  Engine.gen_run g acts (Engine.start_generation g ctx σ) = Some Gσ' →
  ∃ new,
    Engine.calls Gσ'.2 = Engine.calls σ ++ new ∧
    (length new ≤ 4)%nat ∧
    (∀ c, c ∈ new → c.1 = g ∧ c.2 ∈ [0; 359 `div` 2; 359 `div` 2 + 1; 359]) ∧
    (Engine.settle (Engine.root Gσ'.1) = Engine.Fulfilled →
     ∃ c, Engine.colors Gσ'.2 = [c] ∧ name_value c = X).
Proof.
  intros Hacts Hrun.
  pose proof (inv_run X g _ _ _ _ Hacts (inv_start X g ctx σ) Hrun)
    as (_ & _ & l & r & new & Hroot & Hl & Hr & Hcalls & Hlen & Hin & Hagg).
  exists new. split_and!; [done| |done|].
  - assert (Uniform.requests l ≤ 2 ∧ Uniform.requests r ≤ 2)%nat as [? ?]
      by (split; [destruct l|destruct r]; cbn; lia).
    lia.
  - rewrite Hroot. intros [Hdl Hdr]%settle_join.
    assert (Uniform.returned l = true) as Hret
      by (by destruct l as [? ? [|?]|? ? ? [|?]|? ?| |]).
    rewrite Hret in Hagg. destruct Hagg as (c & ? & ? & _). eauto.
Qed.

Lemma uniform_domain_minimal_witness :
  let white h := mkColor "White" h "#FFFFFF" in
  let acts := [Engine.Resolve [false] (white 0); Engine.Resume [false];
               Engine.Resolve [true] (white 180); Engine.Resume [true];
               Engine.Resolve [true] (white 359);
               Engine.Resolve [false] (white 179);
               Engine.Resume [true]; Engine.Resume [false]; Engine.Settle] in
  ∃ Gσ',
    Engine.gen_run 0 acts
      (Engine.start_generation 0 (0, 100) (Engine.hook Engine.unmounted))
      = Some Gσ' ∧
    Engine.settle (Engine.root Gσ'.1) = Engine.Fulfilled ∧
    Engine.loading Gσ'.2 = false ∧
    (length (Engine.calls Gσ'.2) ≤ 4)%nat ∧
    ∃ c, Engine.colors Gσ'.2 = [c] ∧ name_value c = "White".
Proof.
  intros white acts.
  destruct (Engine.gen_run 0 acts
              (Engine.start_generation 0 (0, 100) (Engine.hook Engine.unmounted)))
    as [Gσ'|] eqn:Hrun; [|by vm_compute in Hrun].
  assert (Hdone : Engine.settle (Engine.root Gσ'.1) = Engine.Fulfilled
                  ∧ Engine.loading Gσ'.2 = false)
    by (vm_compute in Hrun; injection Hrun as <-; by split).
  destruct (uniform_domain_minimal "White" 0 (0, 100)
              (Engine.hook Engine.unmounted) acts Gσ')
    as (new & Hcalls & Hlen & _ & Hone).
  - repeat constructor.
  - exact Hrun.
  - exists Gσ'. split_and!; [done|apply Hdone|apply Hdone| |by apply Hone, Hdone].
    rewrite Hcalls. cbn. lia.
Defined.

(** ** One request per hue and generation *)

Section OwnershipFacts.
Import Engine Ownership.
Context (g : nat).

Lemma calls_of_log_call (hue : Z) (σ : shared) :
  calls_of g (log_call g hue σ) = calls_of g σ ++ [hue].
Proof.
  unfold calls_of, log_call. cbn.
  rewrite filter_app, fmap_app. f_equal.
  rewrite filter_cons_True by done. done.
Qed.

Lemma owns_widen (σ : shared) (lo hi lo' hi' : Z) (t : proc) :
  lo' ≤ lo → hi ≤ hi' → owns g σ lo hi t → owns g σ lo' hi' t.
Proof.
  revert lo hi lo' hi'.
  induction t as [s e w|s e c w|l IHl r IHr| |]; intros lo hi lo' hi' Hlo Hhi;
    cbn; try done.
  - intros (? & ? & ? & ?). split_and!; [lia..|done].
  - intros (? & ? & ? & ?). split_and!; [lia..|done].
  - intros (m & Hm & Hl & Hr). exists m. split_and!; [lia..| |].
    + by eapply IHl; [..|exact Hl].
    + by eapply IHr; [..|exact Hr].
Qed.

(** Calls are not disturbed by requests for hues outside their bounds. *)
Lemma owns_frame (σ σ' : shared) (lo hi : Z) (t : proc) :
  (∀ h, is_Some (cache σ !! h) → is_Some (cache σ' !! h)) →
  (∀ h, lo ≤ h ≤ hi → h ∈ calls_of g σ' → h ∈ calls_of g σ) →
  owns g σ lo hi t → owns g σ' lo hi t.
Proof.
  intros Hcache. revert lo hi.
  induction t as [s e w|s e c w|l IHl r IHr| |]; intros lo hi Hcalls;
    cbn; try done.
  - intros (? & ? & ? & Hans). split_and!; [done..|].
    intros h Hh Hin. destruct (Hans h Hh) as [?|?]; [|by left; eauto|by right].
    apply Hcalls; [lia|done].
  - intros (? & ? & ? & Hans). split_and!; [done..|].
    intros h Hh Hin. destruct (Hans h Hh) as [?|?]; [|by left; eauto|by right].
    apply Hcalls; [lia|done].
  - intros (m & Hm & Hl & Hr). exists m. split_and!; [lia..| |].
    + apply IHl; [|done]. intros h Hh. apply Hcalls. lia.
    + apply IHr; [|done]. intros h Hh. apply Hcalls. lia.
Qed.

Lemma extends_refl (lo hi : Z) (σ σ' : shared) :
  cache σ' = cache σ → calls σ' = calls σ →
  NoDup (calls_of g σ) → extends g lo hi σ σ'.
Proof.
  intros Hc Hl Hnd. unfold extends, calls_of. rewrite Hc, Hl. by eauto.
Qed.

Lemma extends_widen (lo hi lo' hi' : Z) (σ σ' : shared) :
  lo' ≤ lo → hi ≤ hi' → extends g lo hi σ σ' → extends g lo' hi' σ σ'.
Proof.
  intros Hlo Hhi (Hc & Hl & Hnd). split_and!; [done| |done].
  intros h Hh. destruct (Hl h Hh); [by left|right; lia].
Qed.

(** A call on [s, e], made when the hues of [s, e] requested so far are
    all cached, requests [s] at most once. *)
Lemma findIntervals_owns (σ : shared) (s e : Z) :
  s ≤ e → answered g σ s e None → NoDup (calls_of g σ) →
  owns g (findIntervals g s e σ).2 s e (findIntervals g s e σ).1 ∧
  cache (findIntervals g s e σ).2 = cache σ ∧
  NoDup (calls_of g (findIntervals g s e σ).2) ∧
  ∀ h, h ∈ calls_of g (findIntervals g s e σ).2 → h ∈ calls_of g σ ∨ h = s.
Proof.
  intros Hse Hans Hnd. unfold findIntervals, getColor.
  destruct (cache σ !! s) as [c|] eqn:Hhit; cbn [fst snd owns waiting_for].
  - split_and!; [lia..|done|done|done|by left].
  - unfold answered. rewrite calls_of_log_call. split_and!; [lia..| |done| |].
    + intros h Hh [Hin| ->%list_elem_of_singleton]%elem_of_app; [|by right].
      destruct (Hans h Hh Hin) as [?|?]; [by left|done].
    + apply NoDup_app. split_and!; [done| |apply NoDup_singleton].
      intros h Hin ->%list_elem_of_singleton.
      destruct (Hans s ltac:(lia) Hin) as [[? Hs]|?]; [|done].
      by rewrite Hhit in Hs.
    + intros h [?| ->%list_elem_of_singleton]%elem_of_app; [by left|by right].
Qed.

Lemma addColorIfUnique_keeps (c : Color) (Gσ : generation * shared) :
  cache (addColorIfUnique c Gσ).2 = cache Gσ.2 ∧
  calls (addColorIfUnique c Gσ).2 = calls Gσ.2 ∧
  loading (addColorIfUnique c Gσ).2 = loading Gσ.2 ∧
  cancelled (addColorIfUnique c Gσ).1 = cancelled Gσ.1 ∧
  root (addColorIfUnique c Gσ).1 = root Gσ.1 ∧
  awaiting_roots (addColorIfUnique c Gσ).1 = awaiting_roots Gσ.1.
Proof. done. Qed.

Lemma resolve_owns (data : Color) (Gσ Gσ' : generation * shared)
    (lo hi : Z) (t t' : proc) :
  NoDup (calls_of g Gσ.2) → owns g Gσ.2 lo hi t →
  resolve data Gσ t = Some (t', Gσ') →
  owns g Gσ'.2 lo hi t' ∧ extends g lo hi Gσ.2 Gσ'.2.
Proof.
  intros Hnd Hown.
  destruct t as [s e [|c]|s e c0 [|c]|l r| |]; cbn in *; try done;
    intros [= <- <-]; cbn;
    destruct Hown as (Hlo & Hse & Hhi & Hans).
  - split; [split_and!; [done..|]|].
    + intros h Hh Hin. left. cbn.
      destruct (Hans h Hh Hin) as [?|[= ->]];
        [by apply lookup_insert_is_Some'; right|].
      rewrite lookup_insert_eq. by eauto.
    + split_and!; [|by left|done].
      intros h ?. apply lookup_insert_is_Some'. by right.
  - split; [split_and!; [done..|]|].
    + intros h Hh Hin. left. cbn.
      destruct (Hans h Hh Hin) as [?|[= ->]];
        [by apply lookup_insert_is_Some'; right|].
      rewrite lookup_insert_eq. by eauto.
    + split_and!; [|by left|done].
      intros h ?. apply lookup_insert_is_Some'. by right.
Qed.

Lemma reject_owns (Gσ Gσ' : generation * shared) (lo hi : Z) (t t' : proc) :
  NoDup (calls_of g Gσ.2) → owns g Gσ.2 lo hi t →
  reject Gσ t = Some (t', Gσ') →
  owns g Gσ'.2 lo hi t' ∧ extends g lo hi Gσ.2 Gσ'.2.
Proof.
  intros Hnd Hown.
  destruct t as [s e [|c]|s e c0 [|c]|l r| |]; cbn in *; try done;
    intros [= <- <-]; (split; [done|]); by apply extends_refl.
Qed.

Lemma decide_interval_owns (s e : Z) (cs ce : Color)
    (Gσ : generation * shared) (lo hi : Z) :
  NoDup (calls_of g Gσ.2) →
  lo ≤ s → s ≤ e → e ≤ hi → answered g Gσ.2 s e None →
  owns g (decide_interval g s e cs ce Gσ).2.2 lo hi
    (decide_interval g s e cs ce Gσ).1 ∧
  extends g lo hi Gσ.2 (decide_interval g s e cs ce Gσ).2.2.
Proof.
  intros Hnd Hlo Hse Hhi Hans. unfold decide_interval.
  destruct (cancelled Gσ.1); [split; [done|by apply extends_refl]|].
  case_bool_decide; [split; [done|by apply extends_refl]|].
  destruct (Z.leb_spec (e - s) 1) as [Hle|Hgt];
    [split; [done|by apply extends_refl]|].
  pose proof (midpoint_floor s e) as Hmid.
  set (mid := midpoint s e) in *.
  destruct (findIntervals_owns Gσ.2 s mid) as (Hl & Hc1 & Hnd1 & Hnew1);
    [lia| |done|].
  { intros h Hh. apply Hans. lia. }
  destruct (findIntervals g s mid Gσ.2) as [l σ1]. cbn [fst snd] in *.
  destruct (findIntervals_owns σ1 (mid + 1) e) as (Hr & Hc2 & Hnd2 & Hnew2);
    [lia| |done|].
  { intros h Hh Hin. rewrite Hc1.
    destruct (Hnew1 h Hin) as [Hold| ->]; [|lia]. apply Hans; [lia|done]. }
  destruct (findIntervals g (mid + 1) e σ1) as [r σ2]. cbn [fst snd] in *.
  split.
  - exists mid. split_and!; [lia..| |].
    + apply (owns_widen σ2 s mid); [lia..|].
      apply (owns_frame σ1); [by rewrite Hc2| |done].
      intros h Hh Hin. destruct (Hnew2 h Hin) as [?| ->]; [done|lia].
    + by apply (owns_widen σ2 (mid + 1) e); [lia..|].
  - split_and!; [by rewrite Hc2, Hc1| |done].
    intros h Hin. destruct (Hnew2 h Hin) as [Hin1| ->]; [|right; lia].
    destruct (Hnew1 h Hin1) as [?| ->]; [by left|right; lia].
Qed.

Lemma resume_owns (Gσ Gσ' : generation * shared) (lo hi : Z) (t t' : proc) :
  NoDup (calls_of g Gσ.2) → owns g Gσ.2 lo hi t →
  resume g Gσ t = Some (t', Gσ') →
  owns g Gσ'.2 lo hi t' ∧ extends g lo hi Gσ.2 Gσ'.2.
Proof.
  intros Hnd Hown.
  destruct t as [s e [|c]|s e c0 [|c]|l r| |]; cbn in *; try done;
    destruct Hown as (Hlo & Hse & Hhi & Hans).
  - unfold getColor.
    destruct (cache Gσ.2 !! e) as [d|] eqn:Hhit; intros [= <- <-];
      cbn [fst snd owns waiting_for].
    + split; [done|by apply extends_refl].
    + unfold answered, extends. rewrite calls_of_log_call. split.
      * split_and!; [done..|].
        intros h Hh [Hin| ->%list_elem_of_singleton]%elem_of_app; [|by right].
        destruct (Hans h Hh Hin) as [?|?]; [by left|done].
      * split_and!; [done| |].
        -- intros h [?| ->%list_elem_of_singleton]%elem_of_app;
             [by left|right; lia].
        -- apply NoDup_app. split_and!; [done| |apply NoDup_singleton].
           intros h Hin ->%list_elem_of_singleton.
           destruct (Hans e ltac:(lia) Hin) as [[? He]|?]; [|done].
           by rewrite Hhit in He.
  - intros [= Hd].
    pose proof (decide_interval_owns s e c0 c Gσ lo hi Hnd Hlo Hse Hhi Hans)
      as Hres.
    by rewrite Hd in Hres.
Qed.

(** The same for a call anywhere in the tree. *)
Lemma at_path_owns
    (k : generation * shared → proc → option (proc * (generation * shared)))
    (Gσ : generation * shared) :
  (∀ lo hi t t' Gσ', owns g Gσ.2 lo hi t → k Gσ t = Some (t', Gσ') →
     owns g Gσ'.2 lo hi t' ∧ extends g lo hi Gσ.2 Gσ'.2) →
  ∀ p lo hi t t' Gσ', owns g Gσ.2 lo hi t →
    at_path p (k Gσ) t = Some (t', Gσ') →
    owns g Gσ'.2 lo hi t' ∧ extends g lo hi Gσ.2 Gσ'.2.
Proof.
  intros Hk. induction p as [|b p IH]; intros lo hi t t' Gσ' Hown; cbn;
    [by apply Hk|].
  destruct b, t as [| |l r| |]; try done;
    destruct Hown as (m & Hm & Hl & Hr).
  - destruct (at_path p (k Gσ) r) as [[r' y]|] eqn:Hat; [|done].
    intros [= <- <-].
    destruct (IH _ _ _ _ _ Hr Hat) as (Hr' & Hext). split.
    + exists m. split_and!; [lia..| |done].
      destruct Hext as (Hc & Hnew & _).
      apply (owns_frame Gσ.2); [done| |done].
      intros h Hh Hin. destruct (Hnew h Hin); [done|lia].
    + apply (extends_widen (m + 1) hi); [lia..|done].
  - destruct (at_path p (k Gσ) l) as [[l' y]|] eqn:Hat; [|done].
    intros [= <- <-].
    destruct (IH _ _ _ _ _ Hl Hat) as (Hl' & Hext). split.
    + exists m. split_and!; [lia..|done|].
      destruct Hext as (Hc & Hnew & _).
      apply (owns_frame Gσ.2); [done| |done].
      intros h Hh Hin. destruct (Hnew h Hin); [done|lia].
    + apply (extends_widen lo m); [lia..|done].
Qed.

(** Hence no step of generation [g] requests a hue a second time. *)
Lemma gen_step_owns (a : action) (Gσ Gσ' : generation * shared) (lo hi : Z) :
  NoDup (calls_of g Gσ.2) → owns g Gσ.2 lo hi (root Gσ.1) →
  gen_step g a Gσ = Some Gσ' →
  NoDup (calls_of g Gσ'.2) ∧ owns g Gσ'.2 lo hi (root Gσ'.1).
Proof.
  intros Hnd Hown.
  assert (Hon : ∀ p k,
    (∀ lo hi t t' Gσ', owns g Gσ.2 lo hi t → k Gσ t = Some (t', Gσ') →
       owns g Gσ'.2 lo hi t' ∧ extends g lo hi Gσ.2 Gσ'.2) →
    on_task p k Gσ = Some Gσ' →
    NoDup (calls_of g Gσ'.2) ∧ owns g Gσ'.2 lo hi (root Gσ'.1)).
  { intros p k Hk. unfold on_task.
    destruct (at_path p (k Gσ) (root Gσ.1)) as [[t' [G' σ']]|] eqn:Hat;
      [|done].
    intros [= <-]. cbn.
    destruct (at_path_owns k Gσ Hk _ _ _ _ _ _ Hown Hat) as (? & _ & _ & ?).
    done. }
  destruct a as [p d|p|p|]; cbn.
  - apply Hon. intros. by eapply resolve_owns.
  - apply Hon. intros. by eapply reject_owns.
  - apply Hon. intros. by eapply resume_owns.
  - unfold settle_roots. destruct (awaiting_roots Gσ.1); [|done].
    destruct (settle (root Gσ.1)); try done.
    intros [= <-]. cbn. split.
    + by destruct (cancelled Gσ.1).
    + apply (owns_frame Gσ.2); [| |done]; by destruct (cancelled Gσ.1).
Qed.

Lemma gen_run_owns (acts : list action) (Gσ Gσ' : generation * shared)
    (lo hi : Z) :
  NoDup (calls_of g Gσ.2) → owns g Gσ.2 lo hi (root Gσ.1) →
  gen_run g acts Gσ = Some Gσ' →
  NoDup (calls_of g Gσ'.2) ∧ owns g Gσ'.2 lo hi (root Gσ'.1).
Proof.
  revert Gσ. induction acts as [|a acts IH]; intros Gσ Hnd Hown; cbn.
  - by intros [= <-].
  - destruct (gen_step g a Gσ) as [Gσ1|] eqn:Hstep; [|done].
    destruct (gen_step_owns _ _ _ _ _ Hnd Hown Hstep). by apply IH.
Qed.

Lemma start_generation_owns (ctx : Z * Z) (σ : shared) :
  calls_of g σ = [] →
  NoDup (calls_of g (start_generation g ctx σ).2) ∧
  owns g (start_generation g ctx σ).2 0 359 (root (start_generation g ctx σ).1).
Proof.
  intros Hfresh.
  assert (Hcalls : calls_of g (start_generation g ctx σ).2 = [0; 180]).
  { change (calls_of g (log_call g 180 (log_call g 0
              (mkShared ∅ [] true (calls σ)))) = [0; 180]).
    rewrite !calls_of_log_call.
    change (calls_of g (mkShared ∅ [] true (calls σ))) with (calls_of g σ).
    by rewrite Hfresh. }
  split.
  - rewrite Hcalls. apply NoDup_cons. split; [|apply NoDup_singleton].
    by intros [=]%list_elem_of_singleton.
  - change (root (start_generation g ctx σ).1)
      with (Join (AwaitStart 0 179 InFlight) (AwaitStart 180 359 InFlight)).
    cbn [owns waiting_for]. exists 179. unfold answered. rewrite Hcalls.
    split_and!; try lia.
    + intros h Hh Hin. right.
      apply elem_of_cons in Hin as [->|Hin]; [done|].
      apply list_elem_of_singleton in Hin. lia.
    + intros h Hh Hin. right.
      apply elem_of_cons in Hin as [->|Hin]; [lia|].
      by apply list_elem_of_singleton in Hin as ->.
Qed.

End OwnershipFacts.

(** ** Cancellation and failure *)

Section CancellationFacts.
Import Engine Progress Visible.

Lemma at_path_quiet
    (k : generation * shared → proc → option (proc * (generation * shared)))
    (Gσ : generation * shared) (p : path) (t t' : proc)
    (Gσ' : generation * shared) :
  (∀ u u' y, k Gσ u = Some (u', y) → quiet Gσ y) →
  at_path p (k Gσ) t = Some (t', Gσ') → quiet Gσ Gσ'.
Proof.
  intros Hk. revert t t'. induction p as [|b p IH]; intros t t'; cbn;
    [by apply Hk|].
  destruct b, t as [| |l r| |]; try done.
  - destruct (at_path p (k Gσ) r) as [[r' y]|] eqn:Hat; [|done].
    intros [= <- <-]. by eapply IH.
  - destruct (at_path p (k Gσ) l) as [[l' y]|] eqn:Hat; [|done].
    intros [= <- <-]. by eapply IH.
Qed.

Lemma getColor_quiet (g : nat) (hue : Z) (Gσ : generation * shared) :
  quiet Gσ (Gσ.1, (getColor g hue Gσ.2).2).
Proof. unfold getColor. by destruct (cache Gσ.2 !! hue). Qed.

(** Once [cancelled] is set, no step of the generation touches [colors],
    [loading] or [seen]. *)
Lemma cancelled_step_quiet (g : nat) (a : action)
    (Gσ Gσ' : generation * shared) :
  cancelled Gσ.1 = true → gen_step g a Gσ = Some Gσ' → quiet Gσ Gσ'.
Proof.
  intros Hc.
  assert (Hon : ∀ p k, (∀ u u' y, k Gσ u = Some (u', y) → quiet Gσ y) →
            on_task p k Gσ = Some Gσ' → quiet Gσ Gσ').
  { intros p k Hk. unfold on_task.
    destruct (at_path p (k Gσ) (root Gσ.1)) as [[t' [G' σ']]|] eqn:Hat;
      [|done].
    intros [= <-]. by apply (at_path_quiet _ _ _ _ _ _ Hk) in Hat. }
  destruct a as [p d|p|p|]; cbn.
  - apply Hon. intros [s e [|c]|s e c0 [|c]|l r| |] u' y; cbn; try done;
      by intros [= <- <-].
  - apply Hon. intros [s e [|c]|s e c0 [|c]|l r| |] u' y; cbn; try done;
      by intros [= <- <-].
  - apply Hon. intros [s e [|c]|s e c0 [|c]|l r| |] u' y; cbn; try done.
    + pose proof (getColor_quiet g e Gσ) as Hq.
      destruct (getColor g e Gσ.2). by intros [= <- <-].
    + unfold decide_interval. rewrite Hc. by intros [= <- <-].
  - unfold settle_roots. destruct (awaiting_roots Gσ.1); [|done].
    destruct (settle (root Gσ.1)); try done.
    rewrite Hc. by intros [= <-].
Qed.

Lemma settle_join_rejected (l r : proc) :
  settle (Join l r) = Rejected ↔ settle l = Rejected ∨ settle r = Rejected.
Proof.
  cbn. destruct (settle l), (settle r); intuition congruence.
Qed.

(** A step in one member of a [Promise.all] cannot undo a rejection. *)
Lemma at_path_rejected {S : Type} (k : proc → option (proc * S))
    (p : path) (t t' : proc) (x : S) :
  (∀ u u' y, k u = Some (u', y) → settle u ≠ Rejected) →
  settle t = Rejected → at_path p k t = Some (t', x) → settle t' = Rejected.
Proof.
  intros Hk. revert t t'. induction p as [|b p IH]; intros t t' Hrej; cbn.
  - intros Hkt. by apply Hk in Hkt.
  - destruct b, t as [| |l r| |]; try done.
    + destruct (at_path p k r) as [[r' y]|] eqn:Hat; [|done].
      intros [= <- <-]. apply settle_join_rejected.
      apply settle_join_rejected in Hrej as [?|Hr]; [by left|right].
      by eapply IH.
    + destruct (at_path p k l) as [[l' y]|] eqn:Hat; [|done].
      intros [= <- <-]. apply settle_join_rejected.
      apply settle_join_rejected in Hrej as [Hl|?]; [left|by right].
      by eapply IH.
Qed.

(** After a failed request the launcher's [Promise.all] stays rejected:
    the generation never reaches [setLoading(false)]. *)
Lemma rejected_keeps_loading (g : nat) (a : action)
    (Gσ Gσ' : generation * shared) :
  settle (root Gσ.1) = Rejected → gen_step g a Gσ = Some Gσ' →
  settle (root Gσ'.1) = Rejected ∧ loading Gσ'.2 = loading Gσ.2.
Proof.
  intros Hrej.
  assert (Hon : ∀ p k,
            (∀ u u' y, k Gσ u = Some (u', y) →
               settle u ≠ Rejected ∧ loading y.2 = loading Gσ.2) →
            on_task p k Gσ = Some Gσ' →
            settle (root Gσ'.1) = Rejected ∧ loading Gσ'.2 = loading Gσ.2).
  { intros p k Hk. unfold on_task.
    destruct (at_path p (k Gσ) (root Gσ.1)) as [[t' [G' σ']]|] eqn:Hat;
      [|done].
    intros [= <-]. cbn. split.
    - eapply at_path_rejected; [|done..]. intros u u' y Hu.
      by apply Hk in Hu as [? _].
    - clear Hrej. revert Hat. generalize (root Gσ.1) as t. revert t'.
      induction p as [|b p IH]; intros t' t; cbn.
      + intros Hu. by apply Hk in Hu as [_ ?].
      + destruct b, t as [| |l r| |]; try done.
        * destruct (at_path p (k Gσ) r) as [[r' y]|] eqn:Hr; [|done].
          intros [= <- ->]. by eapply IH.
        * destruct (at_path p (k Gσ) l) as [[l' y]|] eqn:Hl; [|done].
          intros [= <- ->]. by eapply IH. }
  destruct a as [p d|p|p|]; cbn.
  - apply Hon. intros [s e [|c]|s e c0 [|c]|l r| |] u' y; cbn; try done;
      by intros [= <- <-].
  - apply Hon. intros [s e [|c]|s e c0 [|c]|l r| |] u' y; cbn; try done;
      by intros [= <- <-].
  - apply Hon. intros [s e [|c]|s e c0 [|c]|l r| |] u' y; cbn; try done.
    + pose proof (getColor_keeps g e Gσ.2) as (_ & Hl & _).
      destruct (getColor g e Gσ.2). by intros [= <- <-].
    + intros [= Hd]. split; [done|].
      assert (loading (decide_interval g s e c0 c Gσ).2.2 = loading Gσ.2)
        as Hl; [|by rewrite Hd in Hl].
      unfold decide_interval. destruct (cancelled Gσ.1); [done|].
      case_bool_decide; [done|]. destruct (e - s <=? 1); [done|].
      pose proof (findIntervals_keeps g s (midpoint s e) Gσ.2) as (_ & H1 & _).
      destruct (findIntervals g s (midpoint s e) Gσ.2) as [l σ1].
      pose proof (findIntervals_keeps g (midpoint s e + 1) e σ1) as (_ & H2 & _).
      destruct (findIntervals g (midpoint s e + 1) e σ1) as [r σ2].
      cbn in *. congruence.
  - unfold settle_roots. destruct (awaiting_roots Gσ.1); [|done].
    by rewrite Hrej.
Qed.

(** With no call suspended, only the launcher can still run. *)
Lemma dead_at_path {S : Type} (k : proc → option (proc * S)) (p : path)
    (t : proc) :
  (∀ u, live u = false → k u = None) →
  live t = false → at_path p k t = None.
Proof.
  intros Hk. revert t. induction p as [|b p IH]; intros t Hdead; cbn;
    [by apply Hk|].
  destruct b, t as [| |l r| |]; try done;
    cbn in Hdead; apply orb_false_elim in Hdead as [Hl Hr].
  - by rewrite (IH _ Hr).
  - by rewrite (IH _ Hl).
Qed.

Lemma dead_rejected_stuck (g : nat) (a : action) (Gσ : generation * shared) :
  live (root Gσ.1) = false → settle (root Gσ.1) = Rejected →
  gen_step g a Gσ = None.
Proof.
  intros Hdead Hrej. destruct a as [p d|p|p|]; cbn; unfold on_task.
  - rewrite dead_at_path; [done| |done]. by intros [? ? [|?]|? ? ? [|?]|? ?| |].
  - rewrite dead_at_path; [done| |done]. by intros [? ? [|?]|? ? ? [|?]|? ?| |].
  - rewrite dead_at_path; [done| |done]. by intros [? ? [|?]|? ? ? [|?]|? ?| |].
  - unfold settle_roots. rewrite Hrej. by destruct (awaiting_roots Gσ.1).
Qed.

End CancellationFacts.

Section CancelledRuns.
Import Engine Visible.

Lemma quiet_trans (a b c : generation * shared) :
  quiet a b → quiet b c → quiet a c.
Proof.
  intros (? & ? & ? & ?) (? & ? & ? & ?). unfold quiet. split_and!; congruence.
Qed.

Lemma cancelled_run_quiet (g : nat) (acts : list action)
    (Gσ Gσ' : generation * shared) :
  cancelled Gσ.1 = true → gen_run g acts Gσ = Some Gσ' → quiet Gσ Gσ'.
Proof.
  revert Gσ. induction acts as [|a acts IH]; intros Gσ Hc; cbn.
  - by intros [= <-].
  - destruct (gen_step g a Gσ) as [Gσ1|] eqn:Hstep; [|done].
    pose proof (cancelled_step_quiet _ _ _ _ Hc Hstep) as Hq.
    intros Hrun. apply (quiet_trans _ Gσ1); [done|].
    apply IH; [|done]. destruct Hq as (_ & _ & _ & ->). done.
Qed.

End CancelledRuns.

(** C4, as the code has it.  An invocation reads the flag [cancelled] at one
    point only: after both endpoint samples have been awaited, right before
    it emits or splits.  So in a cancelled generation that point returns
    without emitting and without starting a subsearch, and no run of the
    generation changes [colors], [seen] or [loading]; but the continuation
    after the first sample goes on to request the second one exactly as in a
    live generation. *)
Theorem cancelled_before_emit (g : nat)
    (Gσ : Engine.generation * Engine.shared) :
  Engine.cancelled Gσ.1 = true →
  (∀ s e colorStart colorEnd,
     Engine.resume g Gσ (Engine.AwaitEnd s e colorStart (Engine.Ready colorEnd))
       = Some (Engine.Done, Gσ)) ∧
  (∀ acts Gσ', Engine.gen_run g acts Gσ = Some Gσ' → Visible.quiet Gσ Gσ') ∧
  (∀ s e colorStart,
     Engine.resume g Gσ (Engine.AwaitStart s e (Engine.Ready colorStart))
       = Some (Engine.AwaitEnd s e colorStart (Engine.getColor g e Gσ.2).1,
               (Gσ.1, (Engine.getColor g e Gσ.2).2))).
Proof.
  intros Hc. split_and!.
  - intros s e cs ce. cbn. unfold Engine.decide_interval. by rewrite Hc.
  - intros acts Gσ'. by apply cancelled_run_quiet.
  - intros s e cs. cbn. by destruct (Engine.getColor g e Gσ.2).
Qed.

Lemma cancelled_before_emit_witness :
  let red := mkColor "Red" 0 "#FF0000" in
  let aqua := mkColor "Aqua" 179 "#00FFFB" in
  let G := Engine.mkGeneration (50, 50) true ∅ Engine.Done false in
  let σ := Engine.mkShared ∅ [] true [(0%nat, 0); (0%nat, 179)] in
  Engine.resume 0 (G, σ) (Engine.AwaitEnd 0 179 red (Engine.Ready aqua))
    = Some (Engine.Done, (G, σ)).
Proof.
  intros red aqua G σ.
  exact (proj1 (cancelled_before_emit 0 (G, σ) eq_refl) 0 179 red aqua).
Defined.

(** C4, as the specification states it, fails: there is no check before
    sampling.  Generation 0 is cancelled by the start of generation 1; when
    the answer for hue 0 still arrives, its invocation on [0, 179] requests
    hue 179.  In general a cancelled invocation that is resumed may call the
    colour API. *)
Lemma cancelled_invocation_requests :
  let old0 := mkColor "Red" 0 "#BF4040" in
  let w1 := Engine.mkWorld
      (Engine.mkShared {[ 0 := old0 ]} [] true
         [(0%nat, 0); (0%nat, 180); (1%nat, 0); (1%nat, 180)])
      [Engine.mkGeneration (50, 50) true ∅
         (Engine.Join (Engine.AwaitStart 0 179 (Engine.Ready old0))
            (Engine.AwaitStart 180 359 Engine.InFlight)) true;
       Engine.mkGeneration (100, 50) false ∅
         (Engine.Join (Engine.AwaitStart 0 179 Engine.InFlight)
            (Engine.AwaitStart 180 359 Engine.InFlight)) true] in
  Engine.run [Engine.NewGeneration (50, 50); Engine.NewGeneration (100, 50);
              Engine.Act 0 (Engine.Resolve [false] old0)] Engine.unmounted
    = Some w1 ∧
  (∃ w2, Engine.step (Engine.Act 0 (Engine.Resume [false])) w1 = Some w2 ∧
         Engine.calls (Engine.hook w2)
           = Engine.calls (Engine.hook w1) ++ [(0%nat, 179)]) ∧
  ¬ (∀ g Gσ t t' Gσ', Engine.cancelled Gσ.1 = true →
       Engine.resume g Gσ t = Some (t', Gσ') →
       Engine.calls Gσ'.2 = Engine.calls Gσ.2).
Proof.
  intros old0 w1. split_and!.
  - by vm_compute.
  - eexists. split; [by vm_compute|]. done.
  - intros Hclaim.
    specialize (Hclaim 0%nat
      (Engine.mkGeneration (50, 50) true ∅ Engine.Done true,
       Engine.mkShared ∅ [] true [])
      (Engine.AwaitStart 0 179 (Engine.Ready old0))
      (Engine.AwaitEnd 0 179 old0 Engine.InFlight)
      (Engine.mkGeneration (50, 50) true ∅ Engine.Done true,
       Engine.mkShared ∅ [] true [(0%nat, 179)])
      eq_refl eq_refl).
    done.
Qed.

(** C2 at a failing request.  The request for hue 0 fails while the
    generation is live; the search on [180, 359] goes on, finds one name and
    emits it.  Then no call is suspended any more, the launcher's
    [Promise.all] is rejected, and [loading] is still [true]: no further step
    of the generation is possible, so the flag is not cleared once the
    branches that did not fail have settled. *)
Theorem sampler_failure_keeps_loading :
  let c180 := mkColor "Aqua" 180 "#00FFFF" in
  let c359 := mkColor "Aqua" 359 "#00FFFF" in
  let final := Engine.mkWorld
      (Engine.mkShared {[ 180 := c180; 359 := c359 ]} [c180] true
         [(0%nat, 0); (0%nat, 180); (0%nat, 359)])
      [Engine.mkGeneration (50, 50) false {[ "Aqua" ]}
         (Engine.Join Engine.Failed Engine.Done) true] in
  Engine.run [Engine.NewGeneration (50, 50);
              Engine.Act 0 (Engine.Reject [false]);
              Engine.Act 0 (Engine.Resolve [true] c180);
              Engine.Act 0 (Engine.Resume [true]);
              Engine.Act 0 (Engine.Resolve [true] c359);
              Engine.Act 0 (Engine.Resume [true])] Engine.unmounted
    = Some final ∧
  Engine.loading (Engine.hook final) = true ∧
  ∀ a, Engine.step (Engine.Act 0 a) final = None.
Proof.
  intros c180 c359 final. split_and!.
  - by vm_compute.
  - done.
  - intros a. unfold Engine.step. cbn [Engine.gens final lookup list_lookup].
    change (Engine.gens final !! 0%nat) with
      (Some (Engine.mkGeneration (50, 50) false {[ "Aqua" ]}
               (Engine.Join Engine.Failed Engine.Done) true)).
    by rewrite dead_rejected_stuck.
Qed.

(** ** The debounce *)

Section DebounceFacts.
Import Debounce.

Lemma handle_armed (s : scalar) (c c' : controller) (t v t' : Z) (ev : event) :
  handler (hook_of (other s) c) = None →
  armed s c t v c' → t ≤ t' → t' - t < delay →
  target ev = s → new_value ev ≠ v →
  armed s c t' (new_value ev) (handle t' ev c').
Proof.
  intros Hother (Hs & Ho & Hg) Hle Hlt <- Hne.
  assert (Hnot : (t + delay <=? t') = false) by (apply Z.leb_gt; lia).
  destruct ev as [v'|v']; cbn in *;
    unfold handle, advance, due; rewrite Hs, Ho, Hother; cbn;
    rewrite Hnot; cbn; unfold render; rewrite Hs; cbn;
    rewrite bool_decide_eq_false_2 by done; by split_and!.
Qed.

Lemma play_armed (s : scalar) (c c' : controller) (t v : Z)
    (evs : list (Z * event)) :
  handler (hook_of (other s) c) = None →
  armed s c t v c' → burst t evs → changes_of s v evs →
  armed s c (final_time t evs) (final_value v evs) (play evs c').
Proof.
  intros Hother. revert c' t v.
  induction evs as [|[t' ev] evs IH]; intros c' t v Harmed; cbn; [done|].
  intros (Hle & Hlt & Hburst) (Htarget & Hne & Hchanges).
  apply IH; [|done..]. by eapply handle_armed.
Qed.

Lemma first_armed (s : scalar) (c : controller) (t : Z) (ev : event) :
  at_rest c → target ev = s → new_value ev ≠ value (hook_of s c) →
  armed s c t (new_value ev) (handle t ev c).
Proof.
  intros (Hs & Hl & _) <- Hne.
  destruct ev as [v|v]; cbn in *;
    unfold handle, advance, due; rewrite Hs, Hl; cbn; unfold render;
    rewrite bool_decide_eq_false_2 by done; by split_and!.
Qed.

Lemma quiesce_armed (s : scalar) (c c' : controller) (t v : Z) :
  handler (hook_of (other s) c) = None → armed s c t v c' →
  generations (quiesce c') =
    (if bool_decide (v = debouncedValue (hook_of s c))
     then generations c else S (generations c)) ∧
  debouncedValue (hook_of s (quiesce c')) = v.
Proof.
  intros Hother (Hs & Ho & Hg).
  assert (Hdue : (t + delay <=? t + delay) = true) by (apply Z.leb_le; lia).
  destruct s; cbn in *;
    unfold quiesce, latest, advance, due; rewrite Hs, Ho, Hother; cbn;
    rewrite Hdue; unfold fire_saturation, fire_lightness, fire, bump;
    rewrite Hs; cbn; by rewrite Hg.
Qed.

End DebounceFacts.

(** C9, as the code has it.  Each of the two context values is debounced on
    its own, on the trailing edge only.  From a controller at rest, a burst of
    changes of one of them, each less than 200 ms after the one before,
    creates no generation while it lasts and leaves the debounced value as it
    was; after every change the pending timer is the one armed by that change,
    due 200 ms later; and when the last timer fires, exactly one generation
    is created if the burst ended on a value other than the settled one, and
    none otherwise. *)
Theorem debounce_trailing_edge (s : Debounce.scalar) (c : Debounce.controller)
    (t1 : Z) (ev1 : Debounce.event) (more : list (Z * Debounce.event)) :
  let evs := (t1, ev1) :: more in
  let settled := Debounce.value (Debounce.hook_of s c) in
  let last := Debounce.final_value settled evs in
  Debounce.at_rest c →
  Debounce.burst t1 more →
  Debounce.changes_of s settled evs →
  Debounce.generations (Debounce.play evs c) = Debounce.generations c ∧
  Debounce.debouncedValue (Debounce.hook_of s (Debounce.play evs c)) = settled ∧
  Debounce.handler (Debounce.hook_of s (Debounce.play evs c))
    = Some (Debounce.final_time t1 more + 200, last) ∧
  Debounce.generations (Debounce.quiesce (Debounce.play evs c))
    = (if bool_decide (last = settled) then Debounce.generations c
       else S (Debounce.generations c)) ∧
  Debounce.debouncedValue
    (Debounce.hook_of s (Debounce.quiesce (Debounce.play evs c))) = last.
Proof.
  intros evs settled last Hrest Hburst (Htarget & Hne & Hchanges).
  assert (Hother : Debounce.handler
                     (Debounce.hook_of (Debounce.other s) c) = None)
    by (destruct Hrest as (? & ? & _); by destruct s).
  assert (Hdeb : Debounce.debouncedValue (Debounce.hook_of s c) = settled)
    by (destruct Hrest as (_ & _ & ? & ?); by destruct s).
  assert (Harmed : Debounce.armed s c (Debounce.final_time t1 more) last
                     (Debounce.play evs c)).
  { apply (play_armed s c _ t1 (Debounce.new_value ev1) more); [done| |done..].
    by apply first_armed. }
  destruct (quiesce_armed s c _ _ _ Hother Harmed) as (Hgen & Hval).
  destruct Harmed as (Hs & _ & Hg).
  rewrite Hs. cbn. rewrite Hdeb in Hgen |- *.
  by split_and!.
Qed.

Lemma debounce_trailing_edge_witness :
  let c := Debounce.quiesce (Debounce.mount_controller 0 50 50) in
  let evs := [(1000, Debounce.SetSaturation 51);
              (1010, Debounce.SetSaturation 52);
              (1020, Debounce.SetSaturation 53);
              (1035, Debounce.SetSaturation 54);
              (1050, Debounce.SetSaturation 55)] in
  Debounce.generations c = 1%nat ∧
  Debounce.generations (Debounce.play evs c) = 1%nat ∧
  Debounce.generations (Debounce.quiesce (Debounce.play evs c)) = 2%nat.
Proof.
  intros c evs.
  destruct (debounce_trailing_edge Debounce.Saturation c 1000
              (Debounce.SetSaturation 51)
              [(1010, Debounce.SetSaturation 52);
               (1020, Debounce.SetSaturation 53);
               (1035, Debounce.SetSaturation 54);
               (1050, Debounce.SetSaturation 55)])
    as (Hduring & _ & _ & Hafter & _).
  - by vm_compute.
  - cbn. unfold Debounce.delay. lia.
  - cbn. by split_and!.
  - split_and!; [done|exact Hduring|exact Hafter].
Defined.

(** C9, as the specification states it, fails: two updates 10 ms apart that
    touch the saturation and then the lightness create two generations, each
    value having a timer of its own; and two updates that bring the
    saturation back to the settled value create none. *)
Lemma burst_not_one_generation :
  let c := Debounce.quiesce (Debounce.mount_controller 0 50 50) in
  let both := [(1000, Debounce.SetSaturation 60);
               (1010, Debounce.SetLightness 40)] in
  let back := [(1000, Debounce.SetSaturation 60);
               (1010, Debounce.SetSaturation 50)] in
  Debounce.at_rest c ∧
  Debounce.burst 1000 both ∧ Debounce.burst 1000 back ∧
  Debounce.generations (Debounce.quiesce (Debounce.play both c))
    = (Debounce.generations c + 2)%nat ∧
  Debounce.generations (Debounce.quiesce (Debounce.play back c))
    = Debounce.generations c.
Proof.
  intros c both back. by split_and!.
Qed.

(** ** Generations side by side *)

Section HookFacts.
Import Engine Ownership Hook.

Lemma at_path_result {S : Type} (P : S → Prop) (k : proc → option (proc * S))
    (p : path) (t t' : proc) (x : S) :
  (∀ u u' y, k u = Some (u', y) → P y) →
  at_path p k t = Some (t', x) → P x.
Proof.
  intros Hk. revert t t'. induction p as [|b p IH]; intros t t'; cbn;
    [by apply Hk|].
  destruct b, t as [| |l r| |]; try done.
  - destruct (at_path p k r) as [[r' y]|] eqn:Hat; [|done].
    intros [= <- <-]. by eapply IH.
  - destruct (at_path p k l) as [[l' y]|] eqn:Hat; [|done].
    intros [= <- <-]. by eapply IH.
Qed.

Lemma effects_refl (g : nat) (Gσ Gσ' : generation * shared) :
  cancelled Gσ'.1 = cancelled Gσ.1 → cache Gσ'.2 = cache Gσ.2 →
  calls Gσ'.2 = calls Gσ.2 → effects g Gσ Gσ'.
Proof.
  intros Hc Hm Hl. split_and!; [done|by rewrite Hm|].
  exists []. rewrite app_nil_r. split; [done|].
  intros c Hin. by apply elem_of_nil in Hin.
Qed.

Lemma getColor_effects (g : nat) (hue : Z) (Gσ : generation * shared) :
  effects g Gσ (Gσ.1, (getColor g hue Gσ.2).2).
Proof.
  unfold getColor. destruct (cache Gσ.2 !! hue); [by apply effects_refl|].
  split_and!; [done..|]. exists [(g, hue)]. split; [done|].
  by intros c ->%list_elem_of_singleton.
Qed.

Lemma effects_trans (g : nat) (a b c : generation * shared) :
  effects g a b → effects g b c → effects g a c.
Proof.
  intros (Hc1 & Hm1 & e1 & Hl1 & He1) (Hc2 & Hm2 & e2 & Hl2 & He2).
  split_and!; [congruence|by eauto|].
  exists (e1 ++ e2). split; [by rewrite Hl2, Hl1, (assoc_L (++))|].
  intros x [?|?]%elem_of_app; by eauto.
Qed.

Lemma decide_interval_effects (g : nat) (s e : Z) (cs ce : Color)
    (Gσ : generation * shared) :
  effects g Gσ (decide_interval g s e cs ce Gσ).2.
Proof.
  unfold decide_interval.
  destruct (cancelled Gσ.1) eqn:Hc; [by apply effects_refl|].
  case_bool_decide; [by apply effects_refl|].
  destruct (e - s <=? 1); [by apply effects_refl|].
  pose proof (getColor_effects g s Gσ) as H1. unfold findIntervals.
  destruct (getColor g s Gσ.2) as [w1 σ1]. cbn in H1.
  pose proof (getColor_effects g (midpoint s e + 1) (Gσ.1, σ1)) as H2.
  cbn in H2. destruct (getColor g (midpoint s e + 1) σ1) as [w2 σ2]. cbn in *.
  by eapply effects_trans.
Qed.

Lemma gen_step_effects (g : nat) (a : action) (Gσ Gσ' : generation * shared) :
  gen_step g a Gσ = Some Gσ' → effects g Gσ Gσ'.
Proof.
  assert (Hon : ∀ p k, (∀ u u' y, k Gσ u = Some (u', y) → effects g Gσ y) →
            on_task p k Gσ = Some Gσ' → effects g Gσ Gσ').
  { intros p k Hk. unfold on_task.
    destruct (at_path p (k Gσ) (root Gσ.1)) as [[t' [G' σ']]|] eqn:Hat; [|done].
    intros [= <-]. by apply (at_path_result (effects g Gσ) _ _ _ _ _ Hk) in Hat. }
  destruct a as [p d|p|p|]; cbn.
  - apply Hon. intros [s e [|c]|s e c0 [|c]|l r| |] u' y; cbn; try done;
      intros [= <- <-]; (split_and!; [done| |]);
      try (intros h ?; apply lookup_insert_is_Some'; by right);
      exists []; rewrite app_nil_r; (split; [done|]);
      intros c' Hin; by apply elem_of_nil in Hin.
  - apply Hon. intros [s e [|c]|s e c0 [|c]|l r| |] u' y; cbn; try done;
      intros [= <- <-]; by apply effects_refl.
  - apply Hon. intros [s e [|c]|s e c0 [|c]|l r| |] u' y; cbn; try done.
    + pose proof (getColor_effects g e Gσ) as He.
      destruct (getColor g e Gσ.2). by intros [= <- <-].
    + intros [= Hd]. pose proof (decide_interval_effects g s e c0 c Gσ) as He.
      by rewrite Hd in He.
  - unfold settle_roots. destruct (awaiting_roots Gσ.1); [|done].
    destruct (settle (root Gσ.1)); try done.
    intros [= <-]. apply effects_refl; cbn; by destruct (cancelled Gσ.1).
Qed.

(** Requests made in another name leave [calls_of g] alone. *)
Lemma calls_of_foreign (g g' : nat) (σ σ' : shared) (extra : list (nat * Z)) :
  g ≠ g' → calls σ' = calls σ ++ extra → (∀ c, c ∈ extra → c.1 = g') →
  calls_of g σ' = calls_of g σ.
Proof.
  intros Hne Hl Hextra. unfold calls_of. rewrite Hl, filter_app, fmap_app.
  assert (filter (fun c : nat * Z => c.1 = g) extra = []) as ->;
    [|by rewrite app_nil_r].
  clear Hl. induction extra as [|c extra IH]; [done|].
  rewrite filter_cons_False.
  - apply IH. intros c' Hin. apply Hextra. by apply list_elem_of_further.
  - rewrite (Hextra c); [done|apply list_elem_of_here].
Qed.

Lemma calls_of_fresh (g : nat) (σ : shared) :
  (∀ c, c ∈ calls σ → (c.1 < g)%nat) → calls_of g σ = [].
Proof.
  intros Hlt. unfold calls_of.
  induction (calls σ) as [|c l IH]; [done|].
  rewrite filter_cons_False.
  - apply IH. intros c' Hin. apply Hlt. by apply list_elem_of_further.
  - specialize (Hlt c (list_elem_of_here _ _)). lia.
Qed.

Lemma well_run_unmounted : well_run unmounted.
Proof.
  split_and!.
  - intros c Hin. by apply elem_of_nil in Hin.
  - by intros g G.
  - by intros g G.
Qed.

Lemma well_run_new_generation (ctx : Z * Z) (w : world) :
  well_run w → well_run (new_generation ctx w).
Proof.
  intros (Hcalls & Hold & Hlast). unfold new_generation.
  set (n := length (gens w)). set (old := alter set_cancelled (pred n) (gens w)).
  assert (Hlen : length old = n) by (unfold old; by rewrite length_alter).
  assert (Hfresh : calls_of n (hook w) = []).
  { apply calls_of_fresh. intros c Hin. by apply Hcalls in Hin. }
  pose proof (start_generation_owns n ctx (hook w) Hfresh) as [Hnd Hown].
  pose proof (start_generation_eq n ctx (hook w)) as Hstart.
  destruct (start_generation n ctx (hook w)) as [G1 σ1].
  injection Hstart as HG1 Hσ1. cbn [fst snd] in Hnd, Hown.
  split_and!; cbn [hook gens]; rewrite length_app, Hlen; cbn [length].
  - rewrite Hσ1. cbn [calls].
    intros c [[Hin|Hin]%elem_of_app|Hin]%elem_of_app.
    + apply Hcalls in Hin. fold n in Hin. lia.
    + apply list_elem_of_singleton in Hin as ->. cbn. lia.
    + apply list_elem_of_singleton in Hin as ->. cbn. lia.
  - intros g G Hg Hlt. rewrite lookup_app_l in Hg by lia.
    unfold old in Hg. rewrite list_lookup_alter in Hg.
    case_decide as Heq; [|apply (Hold g G Hg); fold n; lia].
    destruct (gens w !! pred n) as [G0|]; [|done]. cbn in Hg.
    by injection Hg as <-.
  - intros g G Hg Heq. assert (g = n) as -> by lia.
    rewrite lookup_app_r, Hlen, Nat.sub_diag in Hg by lia.
    injection Hg as <-. split_and!; [by rewrite HG1|done..].
Qed.

Lemma well_run_act (g : nat) (a : action) (w w' : world) :
  well_run w → step (Act g a) w = Some w' → well_run w'.
Proof.
  intros (Hcalls & Hold & Hlast). cbn.
  destruct (gens w !! g) as [G|] eqn:HG; [|done].
  destruct (gen_step g a (G, hook w)) as [[G' σ']|] eqn:Hstep; [|done].
  intros [= <-]. unfold well_run. cbn [hook gens]. rewrite length_insert.
  pose proof (gen_step_effects _ _ _ _ Hstep)
    as (Hc & Hmono & extra & Hlog & Hextra). cbn in Hc, Hmono, Hlog.
  pose proof (lookup_lt_Some _ _ _ HG) as Hg.
  split_and!.
  - intros c. rewrite Hlog. intros [Hin|Hin]%elem_of_app; [by apply Hcalls|].
    by rewrite (Hextra c Hin).
  - intros g0 G0 Hg0 Hlt. destruct (decide (g0 = g)) as [->|Hne].
    + rewrite list_lookup_insert_eq in Hg0 by done. injection Hg0 as <-.
      rewrite Hc. by apply (Hold g G).
    + rewrite list_lookup_insert_ne in Hg0 by done. by apply (Hold g0 G0).
  - intros g0 G0 Hg0 Heq. destruct (decide (g0 = g)) as [->|Hne].
    + rewrite list_lookup_insert_eq in Hg0 by done. injection Hg0 as <-.
      destruct (Hlast g G HG Heq) as (Hlive & Hnd & Hown).
      split; [by rewrite Hc|].
      by apply (gen_step_owns g a (G, hook w) (G', σ') 0 359).
    + rewrite list_lookup_insert_ne in Hg0 by done.
      destruct (Hlast g0 G0 Hg0 Heq) as (Hlive & Hnd & Hown).
      rewrite (calls_of_foreign g0 g (hook w) σ' extra) by done.
      split_and!; [done..|].
      apply (owns_frame g0 (hook w)); [done| |done].
      intros h _. by rewrite (calls_of_foreign g0 g (hook w) σ' extra).
Qed.

Lemma well_run_run (ls : list label) (w w' : world) :
  well_run w → run ls w = Some w' → well_run w'.
Proof.
  revert w. induction ls as [|l ls IH]; intros w Hw; cbn.
  - by intros [= <-].
  - destruct (step l w) as [w1|] eqn:Hstep; [|done].
    apply IH. destruct l as [g a|ctx].
    + by eapply well_run_act.
    + cbn in Hstep. injection Hstep as <-. by apply well_run_new_generation.
Qed.

(** A generation that is not cancelled is the one started last. *)
Lemma live_generation_last (w : world) (g : nat) (G : generation) :
  well_run w → gens w !! g = Some G → cancelled G = false →
  S g = length (gens w).
Proof.
  intros (_ & Hold & _) HG Hlive.
  pose proof (lookup_lt_Some _ _ _ HG) as Hlt.
  destruct (decide (S g = length (gens w))) as [?|Hne]; [done|].
  rewrite (Hold g G HG) in Hlive; [done|lia].
Qed.

(** The steps of a superseded generation change neither [colors] nor
    [loading]. *)
Lemma superseded_step_quiet (w w' : world) (g : nat) (a : action)
    (G : generation) :
  gens w !! g = Some G → cancelled G = true →
  step (Act g a) w = Some w' →
  colors (hook w') = colors (hook w) ∧ loading (hook w') = loading (hook w).
Proof.
  intros HG Hc. cbn. rewrite HG.
  destruct (gen_step g a (G, hook w)) as [[G' σ']|] eqn:Hstep; [|done].
  intros [= <-]. cbn.
  by destruct (cancelled_step_quiet g a (G, hook w) (G', σ') Hc Hstep)
    as (? & ? & _).
Qed.

End HookFacts.

(** C1, as the code has it.  [getColor] answers from the cache only once a
    sample has been resolved and stored: for a cached hue it issues no
    request, for any other hue it issues a request of its own, also while an
    earlier request for that hue is still in flight.  The search itself never
    asks for a hue whose request is in flight: in every run of the hook,
    whatever the order of answers and resumptions and whatever superseded
    generations still do, a generation that is not cancelled has requested
    no hue twice. *)
Theorem getColor_once_per_generation (ls : list Engine.label) (w : Engine.world)
    (g : nat) (G : Engine.generation) :
  Engine.run ls Engine.unmounted = Some w →
  Engine.gens w !! g = Some G →
  Engine.cancelled G = false →
  NoDup (Engine.calls_of g (Engine.hook w)) ∧
  (∀ hue data σ, Engine.cache σ !! hue = Some data →
     Engine.getColor g hue σ = (Engine.Ready data, σ)) ∧
  (∀ hue σ, Engine.cache σ !! hue = None →
     Engine.getColor g hue σ = (Engine.InFlight, Engine.log_call g hue σ)).
Proof.
  intros Hrun HG Hlive. split_and!.
  - pose proof (well_run_run _ _ _ well_run_unmounted Hrun) as Hw.
    pose proof (live_generation_last w g G Hw HG Hlive) as Hlast.
    destruct Hw as (_ & _ & Hactive).
    by destruct (Hactive g G HG Hlast) as (_ & ? & _).
  - intros hue data σ Hhit. unfold Engine.getColor. by rewrite Hhit.
  - intros hue σ Hmiss. unfold Engine.getColor. by rewrite Hmiss.
Qed.

Lemma getColor_once_per_generation_witness :
  let red := mkColor "Red" 0 "#FF0000" in
  let aqua := mkColor "Aqua" 179 "#00FFFB" in
  let ls := [Engine.NewGeneration (100, 50);
             Engine.Act 0 (Engine.Resolve [false] red);
             Engine.Act 0 (Engine.Resume [false]);
             Engine.Act 0 (Engine.Resolve [false] aqua);
             Engine.Act 0 (Engine.Resume [false]);
             Engine.Act 0 (Engine.Resume [false; false])] in
  ∃ w,
    Engine.run ls Engine.unmounted = Some w ∧
    Engine.calls_of 0 (Engine.hook w) = [0; 180; 179; 90; 89] ∧
    NoDup (Engine.calls_of 0 (Engine.hook w)).
Proof.
  intros red aqua ls.
  destruct (Engine.run ls Engine.unmounted) as [w|] eqn:Hrun;
    [|by vm_compute in Hrun].
  exists w. split_and!; [done| |].
  - vm_compute in Hrun. by injection Hrun as <-.
  - destruct (Engine.gens w !! 0%nat) as [G|] eqn:HG;
      [|by vm_compute in Hrun; injection Hrun as <-].
    apply (getColor_once_per_generation ls w 0 G Hrun HG).
    vm_compute in Hrun. injection Hrun as <-. by injection HG as <-.
Defined.

(** C1, as the specification states it, fails: a second [getColor] for a hue
    whose request is still in flight does not attach to that request but
    calls the colour API again. *)
Lemma getColor_no_collapsing :
  let σ1 := (Engine.getColor 0 7 (Engine.hook Engine.unmounted)).2 in
  let σ2 := (Engine.getColor 0 7 σ1).2 in
  Engine.cache σ1 !! 7 = None ∧
  Engine.calls σ1 = [(0%nat, 7)] ∧
  Engine.calls σ2 = [(0%nat, 7); (0%nat, 7)] ∧
  ¬ (∀ g hue σ, hue ∈ Engine.calls_of g σ → Engine.cache σ !! hue = None →
       Engine.calls (Engine.getColor g hue σ).2 = Engine.calls σ).
Proof.
  split_and!; [done..|].
  intros Hclaim.
  specialize (Hclaim 0%nat 7
                (Engine.getColor 0 7 (Engine.hook Engine.unmounted)).2).
  assert (Engine.calls (Engine.getColor 0 7
            (Engine.getColor 0 7 (Engine.hook Engine.unmounted)).2).2
          = [(0%nat, 7); (0%nat, 7)]) as Htwice by done.
  rewrite Hclaim in Htwice; [done| |done].
  apply list_elem_of_here.
Qed.

(** ** The hook in the browser: superseded and unmounted generations *)

Section InstanceFacts.
Import Engine Hook Visible.



Lemma inv_initial : Instance.inv Instance.initial.
Proof. apply well_run_unmounted. Qed.

Lemma inv_instance_step (ev : Instance.event) (i i' : Instance.t) :
  Instance.inv i → Instance.step ev i = Some i' → Instance.inv i'.
Proof.
  destruct i as [w d]. unfold Instance.inv. cbn [Instance.disposed Instance.world].
  destruct ev as [[g a|ctx]|]; cbn [Instance.step Instance.disposed Instance.world].
  - destruct (gens w !! g) as [G|] eqn:HG; [|done].
    destruct (Engine.step (Act g (Instance.fetch_outcome G a)) w)
      as [w'|] eqn:Hstep; [|done].
    intros Hinv [= <-]. cbn [Instance.disposed Instance.world].
    destruct d; [|by eapply well_run_act].
    cbn in Hstep. rewrite HG in Hstep.
    destruct (gen_step g (Instance.fetch_outcome G a) (G, hook w))
      as [[G' σ']|] eqn:Hgen; [|done].
    injection Hstep as <-. cbn [gens].
    pose proof (gen_step_effects _ _ _ _ Hgen) as (Hc & _). cbn in Hc.
    intros g0 G0 Hg0. destruct (decide (g0 = g)) as [->|Hne].
    + pose proof (lookup_lt_Some _ _ _ HG).
      rewrite list_lookup_insert_eq in Hg0 by done. injection Hg0 as <-.
      rewrite Hc. by apply (Hinv g G).
    + rewrite list_lookup_insert_ne in Hg0 by done. by apply (Hinv g0 G0).
  - destruct d; [done|]. intros Hinv [= <-]. cbn.
    by apply well_run_new_generation.
  - destruct d; [done|]. intros (_ & Hold & _) [= <-]. cbn.
    intros g G. unfold Instance.cleanup. cbn [gens].
    rewrite list_lookup_alter. case_decide as Heq.
    + destruct (gens w !! pred (length (gens w))) as [G0|]; [|done].
      cbn. by intros [= <-].
    + intros HG. apply (Hold g G HG).
      pose proof (lookup_lt_Some _ _ _ HG). lia.
Qed.

Lemma inv_instance_run (evs : list Instance.event) (i i' : Instance.t) :
  Instance.inv i → Instance.run evs i = Some i' → Instance.inv i'.
Proof.
  revert i. induction evs as [|ev evs IH]; intros i Hinv; cbn.
  - by intros [= <-].
  - destruct (Instance.step ev i) as [i1|] eqn:Hstep; [|done].
    apply IH. by eapply inv_instance_step.
Qed.

(** In a hook instance a generation that has been superseded, or whose
    component was unmounted, is cancelled. *)
Lemma inv_cancelled (i : Instance.t) (g : nat) (G : generation) :
  Instance.inv i → gens (Instance.world i) !! g = Some G →
  (S g < length (gens (Instance.world i)))%nat ∨ Instance.disposed i = true →
  cancelled G = true.
Proof.
  unfold Instance.inv. intros Hinv HG Hwhy.
  destruct (Instance.disposed i); [by apply (Hinv g G)|].
  destruct Hinv as (_ & Hold & _). destruct Hwhy as [Hlt|?]; [|done].
  by apply (Hold g G).
Qed.

End InstanceFacts.



(** * Further properties of the source *)

(** ** [clamp] *)

(** X1.  With bounds in order, [clamp] returns a value within them, and
    returns its argument exactly when that is already within them. *)
Theorem clamp_within (value min max : Z) :
  min ≤ max →
  min ≤ clamp value min max ≤ max ∧
  (clamp value min max = value ↔ min ≤ value ≤ max).
Proof. unfold clamp. lia. Qed.

Lemma clamp_within_witness :
  0 ≤ 100 ∧
  0 ≤ clamp 150 0 100 ≤ 100 ∧ (clamp 150 0 100 = 150 ↔ 0 ≤ 150 ≤ 100).
Proof. split; [lia|apply (clamp_within 150 0 100); lia]. Defined.

(** X2.  With bounds out of order ([max < min]) [clamp] returns [max]
    whatever the value: the upper bound is applied last. *)
Theorem clamp_inverted_bounds (value min max : Z) :
  max < min → clamp value min max = max.
Proof. unfold clamp. lia. Qed.

Lemma clamp_inverted_bounds_witness : clamp 50 100 0 = 0.
Proof. apply clamp_inverted_bounds. lia. Defined.

(** ** The order of the list read *)

Section ReadOrderFacts.

Lemma hue_determines (l : list Color) (c d : Color) :
  NoDup (hsl_h <$> l) → c ∈ l → d ∈ l → hsl_h c = hsl_h d → c = d.
Proof.
  induction l as [|x l IH]; cbn; [by intros _ ?%elem_of_nil|].
  intros [Hx Hnd]%NoDup_cons Hc Hd Heq.
  apply elem_of_cons in Hc as [->|Hc]; apply elem_of_cons in Hd as [->|Hd];
    [done| | |by apply IH].
  - destruct Hx. rewrite Heq. by apply list_elem_of_fmap_2.
  - destruct Hx. rewrite <- Heq. by apply list_elem_of_fmap_2.
Qed.

Lemma colorsSorted_perm (l : list Color) : colorsSorted l ≡ₚ l.
Proof. apply (sort_from_perm [] l). Qed.

Lemma colorsSorted_is_sorted (l : list Color) : Sorted h_le (colorsSorted l).
Proof. apply sort_from_sorted. constructor. Qed.

End ReadOrderFacts.

(** X3.  When the colours held have pairwise distinct hues ([hsl.h]), the
    list read does not depend on the order in which they were emitted: two
    lists with the same colours are sorted into the same list. *)
Theorem colorsSorted_order_independent (held held' : list Color) :
  held ≡ₚ held' → NoDup (hsl_h <$> held) →
  colorsSorted held = colorsSorted held'.
Proof.
  intros Hperm Hnd.
  apply (Sorted_unique_strong h_le);
    [|apply colorsSorted_is_sorted..|by rewrite !colorsSorted_perm].
  intros c d Hc Hd Hcd Hdc.
  apply (hue_determines held); [done| | |unfold h_le in *; lia].
  - by rewrite colorsSorted_perm in Hc.
  - by rewrite colorsSorted_perm, <- Hperm in Hd.
Qed.

Lemma colorsSorted_order_independent_witness :
  let red := mkColor "Red" 0 "#FF0000" in
  let lime := mkColor "Lime" 120 "#00FF00" in
  let blue := mkColor "Blue" 240 "#0000FF" in
  colorsSorted [blue; red; lime] = colorsSorted [lime; blue; red].
Proof.
  intros red lime blue.
  apply (colorsSorted_order_independent [blue; red; lime] [lime; blue; red]).
  - change [lime; blue; red] with ([lime] ++ [blue; red]).
    change [blue; red; lime] with ([blue; red] ++ [lime]).
    apply Permutation_app_comm.
  - compute_done.
Defined.

(** ** [useDebounce] under arbitrary updates *)

Section DebounceStateFacts.
Import Debounce DebounceState.

Lemma advance_ind (P : controller → Prop) :
  (∀ c, P c → P (fire_saturation c)) →
  (∀ c, P c → P (fire_lightness c)) →
  ∀ now c, P c → P (advance now c).
Proof.
  intros Hs Hl now c Hc. unfold advance.
  destruct (due now (saturation c)), (due now (lightness c));
    try case_match; auto.
Qed.

Lemma fire_caught_up (h : hook) :
  caught_up h → caught_up (fire h) ∧ value (fire h) = value h.
Proof.
  unfold caught_up, fire. destruct (handler h) as [[t v]|] eqn:Hh; cbn.
  - by intros ->.
  - by rewrite Hh.
Qed.

Lemma render_caught_up (now v : Z) (h : hook) :
  caught_up h →
  caught_up (render now delay v h) ∧ value (render now delay v h) = v.
Proof.
  unfold caught_up, render. case_bool_decide as Hv; cbn; [|done].
  by rewrite Hv.
Qed.

Lemma advance_holding (vs vl now : Z) (c : controller) :
  holding vs vl c → holding vs vl (advance now c).
Proof.
  apply advance_ind; clear c.
  - intros c (Hs & Hl & <- & <-). unfold holding, fire_saturation. cbn.
    by destruct (fire_caught_up _ Hs) as [? ->].
  - intros c (Hs & Hl & <- & <-). unfold holding, fire_lightness. cbn.
    by destruct (fire_caught_up _ Hl) as [? ->].
Qed.

Lemma handle_holding (vs vl now : Z) (ev : event) (c : controller) :
  holding vs vl c →
  holding (if bool_decide (target ev = Saturation) then new_value ev else vs)
          (if bool_decide (target ev = Lightness) then new_value ev else vl)
          (handle now ev c).
Proof.
  intros Hc. apply (advance_holding _ _ now) in Hc as (Hs & Hl & <- & <-).
  unfold handle, holding. destruct ev as [v|v]; cbn.
  - by destruct (render_caught_up now v _ Hs) as [? ->].
  - by destruct (render_caught_up now v _ Hl) as [? ->].
Qed.

Lemma play_holding (vs vl : Z) (evs : list (Z * event)) (c : controller) :
  holding vs vl c →
  holding (last_value Saturation vs evs) (last_value Lightness vl evs)
    (play evs c).
Proof.
  revert vs vl c. induction evs as [|[t ev] evs IH]; intros vs vl c Hc; [done|].
  cbn. apply IH. by apply handle_holding.
Qed.

Lemma quiesce_settled (c : controller) :
  handler (saturation (quiesce c)) = None ∧
  handler (lightness (quiesce c)) = None.
Proof.
  unfold quiesce, latest, advance, due.
  destruct (handler (saturation c)) as [[ts vs]|] eqn:Hs,
           (handler (lightness c)) as [[tl vl]|] eqn:Hl; cbn.
  - replace (ts <=? ts `max` tl) with true by (symmetry; apply Z.leb_le; lia).
    replace (tl <=? ts `max` tl) with true by (symmetry; apply Z.leb_le; lia).
    case_match; cbn; unfold fire; cbn; by rewrite ?Hs, ?Hl.
  - rewrite Z.leb_refl. cbn. unfold fire. by rewrite Hs.
  - rewrite Z.leb_refl. cbn. unfold fire. by rewrite Hl.
  - done.
Qed.

Lemma mount_holding (now s l : Z) : holding s l (mount_controller now s l).
Proof. done. Qed.

(** Firing a timer moves what is owed into the count of generations. *)
Lemma fire_owed (h : hook) (n : nat) :
  (bump h (fire h) n + owed (fire h) = n + owed h)%nat.
Proof.
  unfold bump, owed, fire. destruct (handler h) as [[t v]|] eqn:Hh; cbn.
  - case_bool_decide; lia.
  - rewrite Hh, bool_decide_eq_true_2 by done. lia.
Qed.

Lemma render_owed (now v : Z) (h : hook) :
  (owed (render now delay v h) ≤ owed h + 1)%nat.
Proof.
  unfold render, owed. case_bool_decide; cbn; [lia|].
  case_bool_decide; destruct (handler h) as [[? ?]|]; try case_bool_decide; lia.
Qed.

Lemma advance_total (now : Z) (c : controller) :
  pending_total (advance now c) = pending_total c.
Proof.
  apply (advance_ind (fun c' => pending_total c' = pending_total c)); [| |done].
  - intros c' <-. unfold pending_total, fire_saturation. cbn.
    pose proof (fire_owed (saturation c') (generations c')). lia.
  - intros c' <-. unfold pending_total, fire_lightness. cbn.
    pose proof (fire_owed (lightness c') (generations c')). lia.
Qed.

Lemma play_total (evs : list (Z * event)) (c : controller) :
  (pending_total (play evs c) ≤ pending_total c + length evs)%nat.
Proof.
  revert c. induction evs as [|[t ev] evs IH]; intros c; cbn; [lia|].
  etrans; [apply IH|].
  assert (pending_total (handle t ev c) ≤ pending_total c + 1)%nat; [|lia].
  rewrite <- (advance_total t c). unfold handle, pending_total.
  destruct ev as [v|v]; cbn.
  - pose proof (render_owed t v (saturation (advance t c))). lia.
  - pose proof (render_owed t v (lightness (advance t c))). lia.
Qed.

End DebounceStateFacts.

(** X4.  No update is lost: after any sequence of timestamped updates of the
    two context values, once the pending timers have fired each debounced
    value is the last value its scalar was set to (the initial one if it was
    never set). *)
Theorem debounce_catches_up (now s l : Z) (evs : list (Z * Debounce.event)) :
  let c := Debounce.quiesce
             (Debounce.play evs (Debounce.mount_controller now s l)) in
  Debounce.debouncedValue (Debounce.saturation c)
    = DebounceState.last_value Debounce.Saturation s evs ∧
  Debounce.debouncedValue (Debounce.lightness c)
    = DebounceState.last_value Debounce.Lightness l evs.
Proof.
  intros c.
  pose proof (play_holding s l evs _ (mount_holding now s l)) as Hplay.
  apply (advance_holding _ _
           (Debounce.latest
              (Debounce.play evs (Debounce.mount_controller now s l))))
    in Hplay as (Hs & Hl & Hvs & Hvl).
  fold (Debounce.quiesce
          (Debounce.play evs (Debounce.mount_controller now s l))) in *.
  fold c in Hs, Hl, Hvs, Hvl.
  destruct (quiesce_settled
              (Debounce.play evs (Debounce.mount_controller now s l)))
    as [Hns Hnl].
  fold c in Hns, Hnl.
  unfold DebounceState.caught_up in Hs, Hl. rewrite Hns in Hs. rewrite Hnl in Hl.
  by rewrite Hs, Hl.
Qed.

(** X5.  The debounce never multiplies work: from mounting on, the effect of
    [useColorsDivideAndConquer] has run at most once for the mount and once
    per update, whatever the timing of the updates. *)
Theorem debounce_generations_bounded (now s l : Z)
    (evs : list (Z * Debounce.event)) :
  (Debounce.generations
     (Debounce.quiesce (Debounce.play evs (Debounce.mount_controller now s l)))
   ≤ 1 + length evs)%nat.
Proof.
  pose proof (play_total evs (Debounce.mount_controller now s l)) as Hplay.
  rewrite <- (advance_total
                (Debounce.latest
                   (Debounce.play evs (Debounce.mount_controller now s l))))
    in Hplay.
  fold (Debounce.quiesce
          (Debounce.play evs (Debounce.mount_controller now s l))) in Hplay.
  unfold DebounceState.pending_total at 1 in Hplay.
  assert (DebounceState.pending_total (Debounce.mount_controller now s l)
          = 1%nat) as Hm.
  { unfold DebounceState.pending_total, DebounceState.owed. cbn.
    by rewrite !bool_decide_eq_true_2. }
  lia.
Qed.

(** ** The search against a colour API that is a function of the hue *)

Section SampledFacts.
Import Engine Sampled.
Context (f : Z → Color) (g : nat).

Lemma tracks_mono (names names' : gset string) (lo hi : Z) (t : proc) :
  names ⊆ names' → tracks f names lo hi t → tracks f names' lo hi t.
Proof.
  intros Hsub. revert lo hi.
  induction t as [s e w|s e c w|l IHl r IHr| |]; intros lo hi; cbn; try done.
  - intros (m & ? & ? & Hl & Hr). exists m. split_and!; [done..| |]; eauto.
  - intros Hdone Hrun h Hh. by apply Hsub, Hdone.
Qed.

Lemma contiguous_within (lo hi lo' hi' : Z) :
  lo ≤ lo' → hi' ≤ hi → contiguous f lo hi → contiguous f lo' hi'.
Proof.
  intros Hlo Hhi Hrun a b c ? ? ? ?. apply Hrun; lia.
Qed.

Lemma addColorIfUnique_seen_grows (c : Color) (a : Aggregator.t) :
  Aggregator.seen a ⊆ Aggregator.seen (Aggregator.addColorIfUnique c a).
Proof.
  unfold Aggregator.addColorIfUnique. case_bool_decide; cbn; set_solver.
Qed.

Lemma addColorIfUnique_colors_from (c x : Color) (a : Aggregator.t) :
  x ∈ Aggregator.colors (Aggregator.addColorIfUnique c a) →
  x ∈ Aggregator.colors a ∨ x = c.
Proof.
  unfold Aggregator.addColorIfUnique. case_bool_decide; cbn; [by left|].
  intros [?| ->%list_elem_of_singleton]%elem_of_app; [by left|by right].
Qed.

(** Emitting a sample of the domain keeps what is kept, and records its
    name. *)
Lemma emit_kept (c : Color) (Gσ : generation * shared) (h : Z) :
  kept f Gσ → 0 ≤ h ≤ 359 → c = f h →
  kept f (addColorIfUnique c Gσ) ∧
  seen Gσ.1 ⊆ seen (addColorIfUnique c Gσ).1 ∧
  name_value c ∈ seen (addColorIfUnique c Gσ).1.
Proof.
  intros (Hlive & Hcache & Hwf & Hcol) Hh Hc. unfold addColorIfUnique. cbn.
  split_and!.
  - split_and!; cbn; [done..| |].
    + pose proof (wf_addColorIfUnique c _ Hwf) as Hwf'.
      by destruct (Aggregator.addColorIfUnique c _).
    + intros x [?| ->]%addColorIfUnique_colors_from; [by apply Hcol|by eauto].
  - apply (addColorIfUnique_seen_grows c (Aggregator.mk _ _)).
  - apply (addColorIfUnique_records c (Aggregator.mk _ _)).
Qed.

Lemma getColor_kept (hue : Z) (Gσ : generation * shared) :
  kept f Gσ →
  kept f (Gσ.1, (getColor g hue Gσ.2).2) ∧
  cache (getColor g hue Gσ.2).2 = cache Gσ.2 ∧
  match (getColor g hue Gσ.2).1 with Ready c => c = f hue | InFlight => True end.
Proof.
  intros (Hlive & Hcache & Hwf & Hcol). unfold getColor.
  destruct (cache Gσ.2 !! hue) as [c|] eqn:Hhit; cbn.
  - split_and!; [by split_and!|done|by apply Hcache].
  - by split_and!.
Qed.

Lemma resolve_tracks (data : Color) (Gσ y : generation * shared)
    (lo hi : Z) (u u' : proc) :
  kept f Gσ → 0 ≤ lo → hi ≤ 359 → tracks f (seen Gσ.1) lo hi u →
  (∀ h, Ownership.waiting_for u = Some h → data = f h) →
  resolve data Gσ u = Some (u', y) →
  (kept f y ∧ seen Gσ.1 ⊆ seen y.1) ∧ tracks f (seen y.1) lo hi u'.
Proof.
  intros (Hlive & Hcache & Hwf & Hcol) Hlo Hhi Htr Hdata.
  destruct u as [s e [|c]|s e c0 [|c]|l r| |]; cbn in *; try done;
    intros [= <- <-]; cbn; specialize (Hdata _ eq_refl);
    (split; [split; [|done]|]).
  - split_and!; cbn; [done| |done..].
    intros h c [[-> ->]|[_ ?]]%lookup_insert_Some; [done|by apply Hcache].
  - destruct Htr as (? & ? & ? & _). by split_and!.
  - split_and!; cbn; [done| |done..].
    intros h c [[-> ->]|[_ ?]]%lookup_insert_Some; [done|by apply Hcache].
  - destruct Htr as (? & ? & ? & ? & _). by split_and!.
Qed.

Lemma reject_tracks (Gσ y : generation * shared) (lo hi : Z) (u u' : proc) :
  kept f Gσ → tracks f (seen Gσ.1) lo hi u →
  reject Gσ u = Some (u', y) →
  (kept f y ∧ seen Gσ.1 ⊆ seen y.1) ∧ tracks f (seen y.1) lo hi u'.
Proof.
  intros Hkept Htr.
  destruct u as [s e [|c]|s e c0 [|c]|l r| |]; cbn in *; try done;
    by intros [= <- <-].
Qed.

Lemma decide_interval_tracks (lo hi : Z) (Gσ : generation * shared) :
  kept f Gσ → 0 ≤ lo → lo ≤ hi → hi ≤ 359 →
  (kept f (decide_interval g lo hi (f lo) (f hi) Gσ).2 ∧
   seen Gσ.1 ⊆ seen (decide_interval g lo hi (f lo) (f hi) Gσ).2.1) ∧
  tracks f (seen (decide_interval g lo hi (f lo) (f hi) Gσ).2.1) lo hi
    (decide_interval g lo hi (f lo) (f hi) Gσ).1.
Proof.
  intros Hkept Hlo Hle Hhi. pose proof Hkept as (Hlive & _).
  unfold decide_interval. rewrite Hlive.
  case_bool_decide as Hname.
  - destruct (emit_kept (f lo) Gσ lo Hkept ltac:(lia) eq_refl)
      as (Hk & Hsub & Hin).
    split; [done|]. cbn [fst snd tracks]. intros Hrun h Hh.
    rewrite (Hrun lo h hi); [done|lia..|done].
  - destruct (Z.leb_spec (hi - lo) 1) as [Hnarrow|Hwide].
    + destruct (emit_kept (f lo) Gσ lo Hkept ltac:(lia) eq_refl)
        as (Hk1 & Hsub1 & Hin1).
      destruct (emit_kept (f hi) _ hi Hk1 ltac:(lia) eq_refl)
        as (Hk2 & Hsub2 & Hin2).
      split; [split; [done|by etrans]|]. cbn [fst snd tracks].
      intros _ h Hh. assert (h = lo ∨ h = hi) as [-> | ->] by lia;
        [by apply Hsub2|done].
    + pose proof (midpoint_floor lo hi) as Hmid.
      set (mid := midpoint lo hi) in *. unfold findIntervals.
      destruct (getColor_kept lo Gσ Hkept) as (Hk1 & Hc1 & Hw1).
      destruct (getColor g lo Gσ.2) as [w1 σ1]. cbn [fst snd] in *.
      destruct (getColor_kept (mid + 1) (Gσ.1, σ1) Hk1) as (Hk2 & Hc2 & Hw2).
      cbn [fst snd] in *.
      destruct (getColor g (mid + 1) σ1) as [w2 σ2]. cbn [fst snd] in *.
      split; [done|]. cbn [tracks]. exists mid. split_and!; try done; lia.
Qed.

Lemma resume_tracks (Gσ y : generation * shared) (lo hi : Z) (u u' : proc) :
  kept f Gσ → 0 ≤ lo → hi ≤ 359 → tracks f (seen Gσ.1) lo hi u →
  resume g Gσ u = Some (u', y) →
  (kept f y ∧ seen Gσ.1 ⊆ seen y.1) ∧ tracks f (seen y.1) lo hi u'.
Proof.
  intros Hkept Hlo Hhi Htr.
  destruct u as [s e [|c]|s e c0 [|c]|l r| |]; cbn in *; try done.
  - destruct Htr as (-> & -> & Hle & ->).
    destruct (getColor_kept hi Gσ Hkept) as (Hk & _ & Hw).
    destruct (getColor g hi Gσ.2) as [w σ']. intros [= <- <-]. cbn in *.
    by split_and!.
  - destruct Htr as (-> & -> & Hle & -> & ->). intros [= Hd].
    pose proof (decide_interval_tracks lo hi Gσ Hkept Hlo Hle Hhi) as Hres.
    by rewrite Hd in Hres.
Qed.

(** The same for a call anywhere in the tree; [Q] is what is known of the
    task stepped. *)
Lemma at_path_tracks
    (k : generation * shared → proc → option (proc * (generation * shared)))
    (Q : proc → Prop) (Gσ : generation * shared) :
  (∀ lo hi u u' y, 0 ≤ lo → hi ≤ 359 → tracks f (seen Gσ.1) lo hi u → Q u →
     k Gσ u = Some (u', y) →
     (kept f y ∧ seen Gσ.1 ⊆ seen y.1) ∧ tracks f (seen y.1) lo hi u') →
  ∀ p lo hi t t' y, 0 ≤ lo → hi ≤ 359 → tracks f (seen Gσ.1) lo hi t →
    (∀ u, leaf_at p t = Some u → Q u) →
    at_path p (k Gσ) t = Some (t', y) →
    (kept f y ∧ seen Gσ.1 ⊆ seen y.1) ∧ tracks f (seen y.1) lo hi t'.
Proof.
  intros Hk. induction p as [|b p IH]; intros lo hi t t' y Hlo Hhi Htr HQ; cbn.
  { intros Hkt. eapply Hk; [done..| |done]. by apply HQ. }
  destruct b, t as [| |l r| |]; try done;
    destruct Htr as (m & Hm1 & Hm2 & Hl & Hr).
  - destruct (at_path p (k Gσ) r) as [[r' z]|] eqn:Hat; [|done].
    intros [= <- <-].
    destruct (IH (m + 1) hi r r' z ltac:(lia) Hhi Hr HQ Hat) as ((? & Hsub) & ?).
    split; [done|]. exists m. split_and!; [done..| |done].
    by apply (tracks_mono (seen Gσ.1)).
  - destruct (at_path p (k Gσ) l) as [[l' z]|] eqn:Hat; [|done].
    intros [= <- <-].
    destruct (IH lo m l l' z Hlo ltac:(lia) Hl HQ Hat) as ((? & Hsub) & ?).
    split; [done|]. exists m. split_and!; [done..|].
    by apply (tracks_mono (seen Gσ.1)).
Qed.

Lemma on_task_sampled
    (k : generation * shared → proc → option (proc * (generation * shared)))
    (Q : proc → Prop) (p : path) (Gσ Gσ' : generation * shared) :
  (∀ lo hi u u' y, 0 ≤ lo → hi ≤ 359 → tracks f (seen Gσ.1) lo hi u → Q u →
     k Gσ u = Some (u', y) →
     (kept f y ∧ seen Gσ.1 ⊆ seen y.1) ∧ tracks f (seen y.1) lo hi u') →
  (∀ l r, k Gσ (Join l r) = None) →
  (∀ u, leaf_at p (root Gσ.1) = Some u → Q u) →
  sampled_inv f Gσ → on_task p k Gσ = Some Gσ' → sampled_inv f Gσ'.
Proof.
  intros Hk Hjoin HQ (Hkept & l & r & Hroot & Hl & Hr). unfold on_task.
  rewrite Hroot in HQ |- *.
  destruct p as [|[|] p]; cbn; [by rewrite Hjoin| |].
  - destruct (at_path p (k Gσ) r) as [[r' [G1 σ1]]|] eqn:Hat; [|done].
    intros [= <-].
    destruct (at_path_tracks k Q Gσ Hk p 180 359 r r' _
                ltac:(lia) ltac:(lia) Hr HQ Hat) as ((Hk1 & Hsub) & Hr').
    split; [done|]. exists l, r'. cbn in *. split_and!; [done| |done].
    by apply (tracks_mono (seen Gσ.1)).
  - destruct (at_path p (k Gσ) l) as [[l' [G1 σ1]]|] eqn:Hat; [|done].
    intros [= <-].
    destruct (at_path_tracks k Q Gσ Hk p 0 179 l l' _
                ltac:(lia) ltac:(lia) Hl HQ Hat) as ((Hk1 & Hsub) & Hl').
    split; [done|]. exists l', r. cbn in *. split_and!; [done..|].
    by apply (tracks_mono (seen Gσ.1)).
Qed.

Lemma gen_step_sampled (a : action) (Gσ Gσ' : generation * shared) :
  sampled_inv f Gσ → answers f a Gσ = true →
  gen_step g a Gσ = Some Gσ' → sampled_inv f Gσ'.
Proof.
  intros Hinv Hans. pose proof Hinv as (Hkept & _).
  destruct a as [p d|p|p|]; cbn.
  - apply (on_task_sampled (resolve d)
             (fun u => ∀ h, Ownership.waiting_for u = Some h → d = f h));
      [|done| |done].
    + intros lo hi u u' y ? ? ? ? ?. by eapply resolve_tracks.
    + intros u Hu h Hh. cbn in Hans. unfold awaited in Hans.
      rewrite Hu, Hh in Hans. by apply bool_decide_eq_true in Hans.
  - apply (on_task_sampled reject (fun _ => True)); [|done|done|done].
    intros lo hi u u' y ? ? ? ? ?. by eapply reject_tracks.
  - apply (on_task_sampled (resume g) (fun _ => True)); [|done|done|done].
    intros lo hi u u' y ? ? ? ? ?. by eapply resume_tracks.
  - unfold settle_roots. destruct (awaiting_roots Gσ.1); [|done].
    destruct (settle (root Gσ.1)); try done.
    intros [= <-]. destruct Hinv as ((Hlive & ? & ? & ?) & l & r & ? & ? & ?).
    rewrite Hlive. by split; [|exists l, r].
Qed.

Lemma gen_run_sampled (acts : list action) (Gσ Gσ' : generation * shared) :
  sampled_inv f Gσ → sampled_run f g acts Gσ = true →
  gen_run g acts Gσ = Some Gσ' → sampled_inv f Gσ'.
Proof.
  revert Gσ. induction acts as [|a acts IH]; intros Gσ Hinv; cbn.
  - by intros _ [= <-].
  - intros [Hans Hrest]%andb_true_iff.
    destruct (gen_step g a Gσ) as [Gσ1|] eqn:Hstep; [|done].
    apply IH; [|done]. by eapply gen_step_sampled.
Qed.

Lemma start_generation_sampled (ctx : Z * Z) (σ : shared) :
  sampled_inv f (start_generation g ctx σ).
Proof.
  rewrite (start_generation_eq g ctx σ). split.
  - split_and!; cbn; [done| |apply wf_empty|].
    + intros h c Hc. by rewrite lookup_empty in Hc.
    + intros c Hc. by apply elem_of_nil in Hc.
  - eexists _, _. cbn. by split_and!.
Qed.

(** When a tree has returned everywhere, every name of its interval is
    recorded. *)
Lemma tracks_fulfilled (names : gset string) (lo hi : Z) (t : proc) :
  tracks f names lo hi t → settle t = Fulfilled → contiguous f lo hi →
  ∀ h, lo ≤ h ≤ hi → name_value (f h) ∈ names.
Proof.
  revert lo hi. induction t as [s e w|s e c w|l IHl r IHr| |]; intros lo hi;
    cbn [tracks]; try done.
  - intros (m & Hm1 & Hm2 & Hl & Hr) [Hsl Hsr]%settle_join Hrun h Hh.
    destruct (decide (h ≤ m)).
    + apply (IHl lo m); [done..| |lia].
      apply (contiguous_within lo hi); [lia..|done].
    + apply (IHr (m + 1) hi); [done..| |lia].
      apply (contiguous_within lo hi); [lia..|done].
Qed.

End SampledFacts.

(** X6.  Whatever the order of answers and resumptions, every colour a
    generation puts in the list is the colour API's answer for some hue of
    the domain [0, 359]: when the API answers each request with [f] of the
    hue asked, the list only holds values of [f]. *)
Theorem search_emits_samples (f : Z → Color) (g : nat) (ctx : Z * Z)
    (σ : Engine.shared) (acts : list Engine.action)
    (Gσ' : Engine.generation * Engine.shared) :
  Sampled.sampled_run f g acts (Engine.start_generation g ctx σ) = true →
  Engine.gen_run g acts (Engine.start_generation g ctx σ) = Some Gσ' →
  ∀ c, c ∈ Engine.colors Gσ'.2 → ∃ h, 0 ≤ h ≤ 359 ∧ c = f h.
Proof.
  intros Hans Hrun.
  pose proof (gen_run_sampled f g acts _ _
                (start_generation_sampled f g ctx σ) Hans Hrun)
    as ((_ & _ & _ & Hcol) & _).
  exact Hcol.
Qed.

Lemma search_emits_samples_witness :
  let f := fun h => if h <? 90 then mkColor "Red" h "#FF0000"
                    else mkColor "Aqua" h "#00FFFF" in
  let acts := [Engine.Resolve [false] (f 0); Engine.Resume [false];
               Engine.Resolve [false] (f 179); Engine.Resume [false];
               Engine.Resume [false; false];
               Engine.Resolve [false; false] (f 89);
               Engine.Resume [false; false]] in
  ∃ Gσ',
    Engine.gen_run 0 acts
      (Engine.start_generation 0 (100, 50) (Engine.hook Engine.unmounted))
      = Some Gσ' ∧
    Engine.colors Gσ'.2 = [f 0] ∧
    ∀ c, c ∈ Engine.colors Gσ'.2 → ∃ h, 0 ≤ h ≤ 359 ∧ c = f h.
Proof.
  intros f acts.
  destruct (Engine.gen_run 0 acts
              (Engine.start_generation 0 (100, 50) (Engine.hook Engine.unmounted)))
    as [Gσ'|] eqn:Hrun; [|by vm_compute in Hrun].
  exists Gσ'. split_and!; [done| |].
  - vm_compute in Hrun. by injection Hrun as <-.
  - apply (search_emits_samples f 0 (100, 50) (Engine.hook Engine.unmounted)
             acts Gσ'); [by vm_compute|done].
Defined.

(** X7.  The search is complete when names come in runs: if on each half
    [0, 179] and [180, 359] of the domain two hues of the same name have
    that name all the way between them, then once both root searches have
    returned, the list holds a colour of the name of every hue of the
    domain. *)
Theorem search_finds_every_name (f : Z → Color) (g : nat) (ctx : Z * Z)
    (σ : Engine.shared) (acts : list Engine.action)
    (Gσ' : Engine.generation * Engine.shared) :
  Sampled.contiguous f 0 179 → Sampled.contiguous f 180 359 →
  Sampled.sampled_run f g acts (Engine.start_generation g ctx σ) = true →
  Engine.gen_run g acts (Engine.start_generation g ctx σ) = Some Gσ' →
  Engine.settle (Engine.root Gσ'.1) = Engine.Fulfilled →
  ∀ h, 0 ≤ h ≤ 359 →
    ∃ c, c ∈ Engine.colors Gσ'.2 ∧ name_value c = name_value (f h).
Proof.
  intros Hleft Hright Hans Hrun Hdone h Hh.
  pose proof (gen_run_sampled f g acts _ _
                (start_generation_sampled f g ctx σ) Hans Hrun)
    as ((_ & _ & [_ Hseen] & _) & l & r & Hroot & Hl & Hr).
  rewrite Hroot in Hdone. apply settle_join in Hdone as [Hdl Hdr].
  assert (name_value (f h) ∈ Engine.seen Gσ'.1) as Hin.
  { destruct (decide (h ≤ 179)).
    - apply (tracks_fulfilled f _ 0 179 l); [done..|lia].
    - apply (tracks_fulfilled f _ 180 359 r); [done..|lia]. }
  apply Hseen in Hin. cbn in Hin.
  apply list_elem_of_fmap in Hin as (c & Hname & Hc). eauto.
Qed.

Lemma search_finds_every_name_witness :
  let f := fun h => if h <? 90 then mkColor "Red" h "#FF0000"
                    else mkColor "Aqua" h "#00FFFF" in
  let acts := [Engine.Resolve [false] (f 0); Engine.Resume [false];
               Engine.Resolve [false] (f 179); Engine.Resume [false];
               Engine.Resume [false; false];
               Engine.Resolve [false; false] (f 89);
               Engine.Resume [false; false];
               Engine.Resolve [false; true] (f 90);
               Engine.Resume [false; true]; Engine.Resume [false; true];
               Engine.Resolve [true] (f 180); Engine.Resume [true];
               Engine.Resolve [true] (f 359); Engine.Resume [true];
               Engine.Settle] in
  ∃ Gσ',
    Engine.gen_run 0 acts
      (Engine.start_generation 0 (100, 50) (Engine.hook Engine.unmounted))
      = Some Gσ' ∧
    Engine.colors Gσ'.2 = [f 0; f 90] ∧
    Engine.calls_of 0 Gσ'.2 = [0; 180; 179; 90; 89; 359] ∧
    ∀ h, 0 ≤ h ≤ 359 →
      ∃ c, c ∈ Engine.colors Gσ'.2 ∧ name_value c = name_value (f h).
Proof.
  intros f acts.
  assert (Hruns : ∀ lo hi, Sampled.contiguous f lo hi).
  { intros lo hi a b c _ Hab Hbc _. unfold f.
    destruct (Z.ltb_spec a 90), (Z.ltb_spec b 90), (Z.ltb_spec c 90);
      cbn; try done; lia. }
  destruct (Engine.gen_run 0 acts
              (Engine.start_generation 0 (100, 50) (Engine.hook Engine.unmounted)))
    as [Gσ'|] eqn:Hrun; [|by vm_compute in Hrun].
  exists Gσ'. split_and!; [done| | |].
  - vm_compute in Hrun. by injection Hrun as <-.
  - vm_compute in Hrun. by injection Hrun as <-.
  - apply (search_finds_every_name f 0 (100, 50)
             (Engine.hook Engine.unmounted) acts Gσ');
      [apply Hruns|apply Hruns|by vm_compute|done|].
    vm_compute in Hrun. by injection Hrun as <-.
Defined.

(** ** The order of the list read and the hues requested *)

(** C7, as the code has it.  Whatever colours were emitted and in whatever
    order, the list read by the renderer is in ascending order of the
    [hsl.h] of its samples and holds exactly the colours of the aggregator:
    the order comes from the sort at read time, not from the order of
    emission.  The key is the [hsl.h] the colour API returned with the
    sample.  When the API returns every sample with the hue it was asked
    for as its [hsl.h], the list read of a generation is the samples of an
    ascending list of hues of the domain. *)
Theorem colorsSorted_sorted (emissions : list Color) (f : Z → Color)
    (g : nat) (ctx : Z * Z) (σ : Engine.shared) (acts : list Engine.action)
    (Gσ' : Engine.generation * Engine.shared) :
  let held := Aggregator.colors
                (Aggregator.emit_all emissions Aggregator.empty) in
  (Sorted h_le (colorsSorted held) ∧ colorsSorted held ≡ₚ held) ∧
  ((∀ h, 0 ≤ h ≤ 359 → hsl_h (f h) = h) →
   Sampled.sampled_run f g acts (Engine.start_generation g ctx σ) = true →
   Engine.gen_run g acts (Engine.start_generation g ctx σ) = Some Gσ' →
   ∃ hues, Sorted Z.le hues ∧ Forall (fun h => 0 ≤ h ≤ 359) hues ∧
           colorsSorted (Engine.colors Gσ'.2) = f <$> hues).
Proof.
  intros held. split.
  { split; [apply colorsSorted_is_sorted|apply colorsSorted_perm]. }
  intros Hecho Hans Hrun.
  pose proof (gen_run_sampled f g acts _ _
                (start_generation_sampled f g ctx σ) Hans Hrun)
    as ((_ & _ & _ & Hcol) & _).
  assert (Hfrom : ∀ c, c ∈ colorsSorted (Engine.colors Gσ'.2) →
            0 ≤ hsl_h c ≤ 359 ∧ f (hsl_h c) = c).
  { intros c Hc. rewrite colorsSorted_perm in Hc.
    destruct (Hcol c Hc) as (h & Hh & ->). by rewrite (Hecho h Hh). }
  exists (hsl_h <$> colorsSorted (Engine.colors Gσ'.2)). split_and!.
  - apply (Sorted_fmap _ h_le Z.le); [done|apply colorsSorted_is_sorted].
  - apply Forall_fmap, Forall_forall. intros c Hc. by apply Hfrom.
  - rewrite <- list_fmap_compose.
    rewrite <- (list_fmap_id (colorsSorted (Engine.colors Gσ'.2))) at 1.
    apply Forall_fmap_ext, Forall_forall. intros c Hc. cbn.
    symmetry. by apply Hfrom.
Qed.

Lemma colorsSorted_sorted_witness :
  let f := fun h => if h <? 90 then mkColor "Red" h "#FF0000"
                    else mkColor "Aqua" h "#00FFFF" in
  let acts := [Engine.Resolve [true] (f 180); Engine.Resume [true];
               Engine.Resolve [true] (f 359); Engine.Resume [true];
               Engine.Resolve [false] (f 0); Engine.Resume [false];
               Engine.Resolve [false] (f 179); Engine.Resume [false];
               Engine.Resume [false; false];
               Engine.Resolve [false; false] (f 89);
               Engine.Resume [false; false]] in
  ∃ Gσ',
    Engine.gen_run 0 acts
      (Engine.start_generation 0 (100, 50) (Engine.hook Engine.unmounted))
      = Some Gσ' ∧
    Engine.colors Gσ'.2 = [f 180; f 0] ∧
    colorsSorted (Engine.colors Gσ'.2) = [f 0; f 180] ∧
    ∃ hues, Sorted Z.le hues ∧ Forall (fun h => 0 ≤ h ≤ 359) hues ∧
            colorsSorted (Engine.colors Gσ'.2) = f <$> hues.
Proof.
  intros f acts.
  destruct (Engine.gen_run 0 acts
              (Engine.start_generation 0 (100, 50) (Engine.hook Engine.unmounted)))
    as [Gσ'|] eqn:Hrun; [|by vm_compute in Hrun].
  exists Gσ'. split_and!; [done| | |].
  - vm_compute in Hrun. by injection Hrun as <-.
  - vm_compute in Hrun. by injection Hrun as <-.
  - apply (colorsSorted_sorted [] f 0 (100, 50)
             (Engine.hook Engine.unmounted) acts Gσ'); [|by vm_compute|done].
    intros h _. unfold f. by destruct (h <? 90).
Defined.

(** C7, as the specification states it, fails: the sort key is the [hsl.h]
    of the payload, which nothing in the hook relates to the hue the sample
    was requested at.  Here the colour API answers the requests for hues 0
    and 179 with a colour whose [hsl.h] is 300, and those for hues 180 and
    359 with one whose [hsl.h] is 180: the list read has the sample
    requested at hue 180 before the sample requested at hue 0. *)
Lemma colorsSorted_by_payload_hue :
  let red := mkColor "Red" 300 "#FF0000" in
  let aqua := mkColor "Aqua" 180 "#00FFFF" in
  let acts := [Engine.Resolve [false] red; Engine.Resume [false];
               Engine.Resolve [false] red; Engine.Resume [false];
               Engine.Resolve [true] aqua; Engine.Resume [true];
               Engine.Resolve [true] aqua; Engine.Resume [true]] in
  ∃ Gσ',
    Engine.gen_run 0 acts
      (Engine.start_generation 0 (100, 50) (Engine.hook Engine.unmounted))
      = Some Gσ' ∧
    Engine.calls_of 0 Gσ'.2 = [0; 180; 179; 359] ∧
    Engine.cache Gσ'.2 !! 0 = Some red ∧
    Engine.cache Gσ'.2 !! 179 = Some red ∧
    Engine.cache Gσ'.2 !! 180 = Some aqua ∧
    Engine.cache Gσ'.2 !! 359 = Some aqua ∧
    Engine.colors Gσ'.2 = [red; aqua] ∧
    colorsSorted (Engine.colors Gσ'.2) = [aqua; red].
Proof.
  intros red aqua acts.
  destruct (Engine.gen_run 0 acts
              (Engine.start_generation 0 (100, 50) (Engine.hook Engine.unmounted)))
    as [Gσ'|] eqn:Hrun; [|by vm_compute in Hrun].
  exists Gσ'. vm_compute in Hrun. injection Hrun as <-.
  by split_and!.
Qed.

(** ** The hues requested *)

Section RangeFacts.
Import Engine Range.

Lemma at_path_inside {S : Type} (P : S → Prop) (k : proc → option (proc * S))
    (lo hi : Z) (p : path) (t t' : proc) (x : S) :
  (∀ u u' y, inside lo hi u → k u = Some (u', y) → inside lo hi u' ∧ P y) →
  inside lo hi t → at_path p k t = Some (t', x) → inside lo hi t' ∧ P x.
Proof.
  intros Hk. revert t t'. induction p as [|b p IH]; intros t t' Hin; cbn;
    [by apply Hk|].
  destruct b, t as [| |l r| |]; try done; destruct Hin as [Hl Hr].
  - destruct (at_path p k r) as [[r' y]|] eqn:Hat; [|done].
    intros [= <- <-]. destruct (IH _ _ Hr Hat). by split.
  - destruct (at_path p k l) as [[l' y]|] eqn:Hat; [|done].
    intros [= <- <-]. destruct (IH _ _ Hl Hat). by split.
Qed.

Lemma getColor_inside (g : nat) (lo hi hue : Z) (σ : shared) :
  lo ≤ hue ≤ hi → calls_inside lo hi σ →
  calls_inside lo hi (getColor g hue σ).2.
Proof.
  intros Hhue Hin. unfold getColor. destruct (cache σ !! hue); [done|].
  intros c [?| ->%list_elem_of_singleton]%elem_of_app; [by apply Hin|done].
Qed.

Lemma findIntervals_inside (g : nat) (lo hi s e : Z) (σ : shared) :
  lo ≤ s → s ≤ e → e ≤ hi → calls_inside lo hi σ →
  inside lo hi (findIntervals g s e σ).1 ∧
  calls_inside lo hi (findIntervals g s e σ).2.
Proof.
  intros Hlo Hse Hhi Hin. unfold findIntervals.
  pose proof (getColor_inside g lo hi s σ ltac:(lia) Hin) as Hc.
  destruct (getColor g s σ) as [w σ']. by split.
Qed.

Lemma decide_interval_inside (g : nat) (lo hi s e : Z) (cs ce : Color)
    (Gσ : generation * shared) :
  lo ≤ s → s ≤ e → e ≤ hi → calls_inside lo hi Gσ.2 →
  inside lo hi (decide_interval g s e cs ce Gσ).1 ∧
  calls_inside lo hi (decide_interval g s e cs ce Gσ).2.2.
Proof.
  intros Hlo Hse Hhi Hin. unfold decide_interval.
  destruct (cancelled Gσ.1); [done|]. case_bool_decide; [done|].
  destruct (Z.leb_spec (e - s) 1) as [?|Hwide]; [done|].
  pose proof (midpoint_floor s e) as Hmid.
  destruct (findIntervals_inside g lo hi s (midpoint s e) Gσ.2) as [Hl Hc1];
    [lia..|done|].
  destruct (findIntervals g s (midpoint s e) Gσ.2) as [l σ1].
  destruct (findIntervals_inside g lo hi (midpoint s e + 1) e σ1) as [Hr Hc2];
    [lia..|done|].
  destruct (findIntervals g (midpoint s e + 1) e σ1) as [r σ2].
  by split.
Qed.

Lemma gen_step_inside (g : nat) (lo hi : Z) (a : action)
    (Gσ Gσ' : generation * shared) :
  inside lo hi (root Gσ.1) → calls_inside lo hi Gσ.2 →
  gen_step g a Gσ = Some Gσ' →
  inside lo hi (root Gσ'.1) ∧ calls_inside lo hi Gσ'.2.
Proof.
  intros Hin Hcalls.
  assert (Hon : ∀ p k,
    (∀ u u' y, inside lo hi u → k Gσ u = Some (u', y) →
       inside lo hi u' ∧ calls_inside lo hi y.2) →
    on_task p k Gσ = Some Gσ' →
    inside lo hi (root Gσ'.1) ∧ calls_inside lo hi Gσ'.2).
  { intros p k Hk. unfold on_task.
    destruct (at_path p (k Gσ) (root Gσ.1)) as [[t' [G' σ']]|] eqn:Hat; [|done].
    intros [= <-].
    by apply (at_path_inside (fun y => calls_inside lo hi y.2) _ _ _ _ _ _ _
                Hk Hin) in Hat. }
  destruct a as [p d|p|p|]; cbn.
  - apply Hon. intros [s e [|c]|s e c0 [|c]|l r| |] u' y Hu; cbn; try done;
      by intros [= <- <-].
  - apply Hon. intros [s e [|c]|s e c0 [|c]|l r| |] u' y Hu; cbn; try done;
      by intros [= <- <-].
  - apply Hon. intros [s e [|c]|s e c0 [|c]|l r| |] u' y Hu; cbn; try done.
    + destruct Hu as (? & ? & ?).
      pose proof (getColor_inside g lo hi e Gσ.2 ltac:(lia) Hcalls) as Hc.
      destruct (getColor g e Gσ.2). by intros [= <- <-].
    + destruct Hu as (? & ? & ?). intros [= Hd].
      pose proof (decide_interval_inside g lo hi s e c0 c Gσ) as Hres.
      rewrite Hd in Hres. by apply Hres.
  - unfold settle_roots. destruct (awaiting_roots Gσ.1); [|done].
    destruct (settle (root Gσ.1)); try done.
    intros [= <-]. split; [done|]. by destruct (cancelled Gσ.1).
Qed.

Lemma in_domain_step (l : label) (w w' : world) :
  in_domain w → step l w = Some w' → in_domain w'.
Proof.
  intros [Hcalls Hgens]. destruct l as [g a|ctx]; cbn.
  - destruct (gens w !! g) as [G|] eqn:HG; [|done].
    destruct (gen_step g a (G, hook w)) as [[G' σ']|] eqn:Hstep; [|done].
    intros [= <-].
    destruct (gen_step_inside g 0 359 a (G, hook w) (G', σ')
                (Hgens g G HG) Hcalls Hstep) as [Hin' Hcalls'].
    split; [done|]. cbn. intros g0 G0.
    destruct (decide (g0 = g)) as [->|Hne].
    + rewrite list_lookup_insert_eq by by eapply lookup_lt_Some.
      by intros [= <-].
    + rewrite list_lookup_insert_ne by done. apply Hgens.
  - intros [= <-]. unfold new_generation.
    pose proof (start_generation_eq (length (gens w)) ctx (hook w)) as Hstart.
    destruct (start_generation (length (gens w)) ctx (hook w)) as [G1 σ1].
    injection Hstart as HG1 Hσ1. subst G1 σ1. split; cbn.
    + intros c [[?|Hc]%elem_of_app|Hc]%elem_of_app; [by apply Hcalls| |];
        apply list_elem_of_singleton in Hc as ->; cbn; lia.
    + intros g0 G0 [HG|[? HG]]%lookup_app_Some.
      * rewrite list_lookup_alter in HG. case_decide; [|by eapply Hgens].
        destruct (gens w !! pred (length (gens w))) as [G2|] eqn:H2; [|done].
        injection HG as <-. by apply (Hgens (pred (length (gens w))) G2).
      * destruct (g0 - _)%nat; [|done]. injection HG as <-. cbn. lia.
Qed.

Lemma in_domain_run (ls : list label) (w w' : world) :
  in_domain w → run ls w = Some w' → in_domain w'.
Proof.
  revert w. induction ls as [|l ls IH]; intros w Hw; cbn.
  - by intros [= <-].
  - destruct (step l w) as [w1|] eqn:Hstep; [|done].
    apply IH. by eapply in_domain_step.
Qed.

Lemma in_domain_unmounted : in_domain unmounted.
Proof.
  split.
  - intros c Hc. by apply elem_of_nil in Hc.
  - by intros g G.
Qed.

Lemma calls_of_inside (g : nat) (σ : shared) (h : Z) :
  calls_inside 0 359 σ → h ∈ calls_of g σ → h ∈ seqZ 0 360.
Proof.
  intros Hin Hh. unfold calls_of in Hh.
  apply list_elem_of_fmap in Hh as ([g' h'] & -> & Hc).
  apply list_elem_of_filter in Hc as [_ Hc]. apply Hin in Hc. cbn in *.
  apply elem_of_seqZ. lia.
Qed.

End RangeFacts.

(** X8.  No generation ever asks for a hue outside the domain [0, 359],
    and a generation that is not cancelled has made at most 360 requests:
    the search never costs more than asking for every hue once. *)
Theorem requests_within_domain (ls : list Engine.label) (w : Engine.world) :
  Engine.run ls Engine.unmounted = Some w →
  (∀ c, c ∈ Engine.calls (Engine.hook w) → 0 ≤ c.2 ≤ 359) ∧
  ∀ g G, Engine.gens w !! g = Some G → Engine.cancelled G = false →
         (length (Engine.calls_of g (Engine.hook w)) ≤ 360)%nat.
Proof.
  intros Hrun.
  pose proof (in_domain_run _ _ _ in_domain_unmounted Hrun) as [Hcalls _].
  split; [done|]. intros g G HG Hlive.
  pose proof (well_run_run _ _ _ well_run_unmounted Hrun) as Hw.
  pose proof (live_generation_last w g G Hw HG Hlive) as Hlast.
  destruct Hw as (_ & _ & Hactive).
  destruct (Hactive g G HG Hlast) as (_ & Hnd & _).
  change 360%nat with (Z.to_nat 360). rewrite <- (length_seqZ 0 360).
  apply submseteq_length, NoDup_submseteq; [done|].
  intros h. by apply calls_of_inside.
Qed.

Lemma requests_within_domain_witness :
  let red := mkColor "Red" 0 "#FF0000" in
  let aqua := mkColor "Aqua" 179 "#00FFFB" in
  let ls := [Engine.NewGeneration (100, 50);
             Engine.Act 0 (Engine.Resolve [false] red);
             Engine.Act 0 (Engine.Resume [false]);
             Engine.Act 0 (Engine.Resolve [false] aqua);
             Engine.Act 0 (Engine.Resume [false])] in
  ∃ w, Engine.run ls Engine.unmounted = Some w ∧
       Engine.calls (Engine.hook w)
         = [(0%nat, 0); (0%nat, 180); (0%nat, 179); (0%nat, 90)] ∧
       ∀ c, c ∈ Engine.calls (Engine.hook w) → 0 ≤ c.2 ≤ 359.
Proof.
  intros red aqua ls.
  destruct (Engine.run ls Engine.unmounted) as [w|] eqn:Hrun;
    [|by vm_compute in Hrun].
  exists w. split_and!; [done| |].
  - vm_compute in Hrun. by injection Hrun as <-.
  - by apply (requests_within_domain ls w).
Defined.

(** ** What the renderer is given *)

Section ShownFacts.
Import Engine Progress Hook Shown.

Lemma fulfilled_dead (t : proc) : settle t = Fulfilled → live t = false.
Proof.
  induction t as [s e w|s e c w|l IHl r IHr| |]; cbn; try done.
  destruct (settle l), (settle r); try done.
  intros _. by rewrite IHl, IHr.
Qed.

Lemma emit_wf (c : Color) (Gσ : generation * shared) :
  Aggregator.wf (Aggregator.mk (seen Gσ.1) (colors Gσ.2)) →
  Aggregator.wf (Aggregator.mk (seen (addColorIfUnique c Gσ).1)
                               (colors (addColorIfUnique c Gσ).2)).
Proof.
  intros Hwf. unfold addColorIfUnique. cbn.
  pose proof (wf_addColorIfUnique c _ Hwf) as Hwf'.
  by destruct (Aggregator.addColorIfUnique c _).
Qed.

Lemma decide_interval_steady (g : nat) (s e : Z) (cs ce : Color)
    (Gσ : generation * shared) :
  Aggregator.wf (Aggregator.mk (seen Gσ.1) (colors Gσ.2)) →
  steady Gσ (decide_interval g s e cs ce Gσ).2.
Proof.
  intros Hwf. unfold decide_interval, steady.
  destruct (cancelled Gσ.1); [done|].
  case_bool_decide; [by split_and!; [apply emit_wf|..]|].
  destruct (e - s <=? 1); [by split_and!; [do 2 apply emit_wf|..]|].
  pose proof (findIntervals_keeps g s (midpoint s e) Gσ.2) as (Hc1 & Hl1 & _).
  destruct (findIntervals g s (midpoint s e) Gσ.2) as [l σ1].
  pose proof (findIntervals_keeps g (midpoint s e + 1) e σ1) as (Hc2 & Hl2 & _).
  destruct (findIntervals g (midpoint s e + 1) e σ1) as [r σ2].
  cbn in *. rewrite Hc2, Hc1, Hl2, Hl1. by split_and!.
Qed.

(** A step of a task keeps the aggregator in order and leaves [loading] and
    the launcher alone; it needs a task that is still suspended. *)
Lemma task_step_steady (g : nat) (a : action) (Gσ Gσ' : generation * shared) :
  a ≠ Settle →
  Aggregator.wf (Aggregator.mk (seen Gσ.1) (colors Gσ.2)) →
  gen_step g a Gσ = Some Gσ' →
  steady Gσ Gσ' ∧ live (root Gσ.1) = true.
Proof.
  intros Ha Hwf.
  assert (Hon : ∀ p k,
    (∀ u u' y, k Gσ u = Some (u', y) → steady Gσ y) →
    (∀ u, live u = false → k Gσ u = None) →
    on_task p k Gσ = Some Gσ' → steady Gσ Gσ' ∧ live (root Gσ.1) = true).
  { intros p k Hk Hdead. unfold on_task.
    destruct (at_path p (k Gσ) (root Gσ.1)) as [[t' [G' σ']]|] eqn:Hat; [|done].
    intros [= <-]. split.
    - by apply (at_path_result (steady Gσ) _ _ _ _ _ Hk) in Hat.
    - destruct (live (root Gσ.1)) eqn:Hlive; [done|].
      by rewrite (dead_at_path _ p _ Hdead Hlive) in Hat. }
  destruct a as [p d|p|p|]; cbn; [| | |done].
  - apply Hon.
    + intros [s e [|c]|s e c0 [|c]|l r| |] u' y; cbn; try done;
        by intros [= <- <-].
    + by intros [? ? [|?]|? ? ? [|?]|? ?| |].
  - apply Hon.
    + intros [s e [|c]|s e c0 [|c]|l r| |] u' y; cbn; try done;
        by intros [= <- <-].
    + by intros [? ? [|?]|? ? ? [|?]|? ?| |].
  - apply Hon.
    + intros [s e [|c]|s e c0 [|c]|l r| |] u' y; cbn; try done.
      * pose proof (getColor_keeps g e Gσ.2) as (Hc & Hl & _).
        destruct (getColor g e Gσ.2). intros [= <- <-]. unfold steady. cbn in *.
        by rewrite Hc, Hl.
      * intros [= Hd]. pose proof (decide_interval_steady g s e c0 c Gσ Hwf) as H.
        by rewrite Hd in H.
    + by intros [? ? [|?]|? ? ? [|?]|? ?| |].
Qed.

Lemma shown_unmounted : shown unmounted.
Proof. split; [done|]. by intros g G. Qed.

Lemma shown_step (l : label) (w w' : world) :
  well_run w → shown w → step l w = Some w' → shown w'.
Proof.
  intros (_ & Hold & Hlast) [Hnone Hshown]. destruct l as [g a|ctx]; cbn.
  - destruct (gens w !! g) as [G|] eqn:HG; [|done].
    destruct (gen_step g a (G, hook w)) as [[G' σ']|] eqn:Hstep; [|done].
    intros [= <-]. pose proof (lookup_lt_Some _ _ _ HG) as Hg.
    split; cbn [hook gens]; [intros Hnil|].
    { apply (f_equal length) in Hnil. rewrite length_insert in Hnil.
      cbn in Hnil. lia. }
    rewrite length_insert. intros g0 G0 HG0 Hlen.
    destruct (decide (g0 = g)) as [->|Hne].
    + rewrite list_lookup_insert_eq in HG0 by done. injection HG0 as <-.
      destruct (Hshown g G HG Hlen) as (Hwf & Hload & Hdone).
      destruct (Hlast g G HG Hlen) as (Hlive & _).
      assert (a = Settle ∨ a ≠ Settle) as [->|Ha]
        by (destruct a; [by right..|by left]).
      * cbn in Hstep. unfold settle_roots in Hstep. cbn in Hstep.
        destruct (awaiting_roots G); [|done].
        destruct (settle (root G)) eqn:Hs; try done.
        rewrite Hlive in Hstep. by injection Hstep as <- <-.
      * destruct (task_step_steady g a (G, hook w) (G', σ') Ha Hwf Hstep)
          as ((Hwf' & Hl' & Ha') & Halive). cbn in *.
        split_and!; [done|congruence|].
        intros Hoff. rewrite Ha' in Hoff.
        by rewrite (fulfilled_dead _ (Hdone Hoff)) in Halive.
    + rewrite list_lookup_insert_ne in HG0 by done.
      assert (cancelled G = true) as Hc by (apply (Hold g G HG); lia).
      destruct (cancelled_step_quiet g a (G, hook w) (G', σ') Hc Hstep)
        as (Hcol & Hload & _). cbn in Hcol, Hload.
      rewrite Hcol, Hload. by apply (Hshown g0 G0).
  - intros [= <-]. unfold new_generation.
    pose proof (start_generation_eq (length (gens w)) ctx (hook w)) as Hstart.
    destruct (start_generation (length (gens w)) ctx (hook w)) as [G1 σ1].
    injection Hstart as HG1 Hσ1. subst G1 σ1. split; cbn [hook gens].
    + intros Hnil. by apply app_nil in Hnil as [_ ?].
    + rewrite length_app, length_alter. cbn [length].
      intros g0 G0 HG0 Hlen. assert (g0 = length (gens w)) as -> by lia.
      rewrite lookup_app_r, length_alter, Nat.sub_diag in HG0
        by (rewrite length_alter; lia).
      injection HG0 as <-. cbn. split_and!; [apply wf_empty|done..].
Qed.

Lemma shown_run (ls : list label) (w w' : world) :
  well_run w → shown w → run ls w = Some w' → well_run w' ∧ shown w'.
Proof.
  revert w. induction ls as [|l ls IH]; intros w Hw Hs; cbn.
  - by intros [= <-].
  - destruct (step l w) as [w1|] eqn:Hstep; [|done].
    apply IH; [|by eapply shown_step].
    destruct l as [g a|ctx]; [by eapply well_run_act|].
    cbn in Hstep. injection Hstep as <-. by apply well_run_new_generation.
Qed.

End ShownFacts.

(** X9.  [loading] is only off when the search is over: in every run of the
    hook, if [loading] is [false] while a generation is live, then every
    call of that generation has returned (none is suspended, none has
    failed), so the list shown is the generation's final one. *)
Theorem not_loading_means_finished (ls : list Engine.label) (w : Engine.world)
    (g : nat) (G : Engine.generation) :
  Engine.run ls Engine.unmounted = Some w →
  Engine.gens w !! g = Some G → Engine.cancelled G = false →
  Engine.loading (Engine.hook w) = false →
  Engine.settle (Engine.root G) = Engine.Fulfilled ∧
  Progress.live (Engine.root G) = false.
Proof.
  intros Hrun HG Hlive Hoff.
  destruct (shown_run _ _ _ well_run_unmounted shown_unmounted Hrun)
    as [Hw [_ Hshown]].
  pose proof (live_generation_last w g G Hw HG Hlive) as Hlast.
  destruct (Hshown g G HG Hlast) as (_ & Hload & Hdone).
  assert (Engine.settle (Engine.root G) = Engine.Fulfilled) as Hs
    by (apply Hdone; congruence).
  split; [done|by apply fulfilled_dead].
Qed.

Lemma not_loading_means_finished_witness :
  let white h := mkColor "White" h "#FFFFFF" in
  let ls := [Engine.NewGeneration (0, 100);
             Engine.Act 0 (Engine.Resolve [false] (white 0));
             Engine.Act 0 (Engine.Resume [false]);
             Engine.Act 0 (Engine.Resolve [true] (white 180));
             Engine.Act 0 (Engine.Resume [true]);
             Engine.Act 0 (Engine.Resolve [true] (white 359));
             Engine.Act 0 (Engine.Resolve [false] (white 179));
             Engine.Act 0 (Engine.Resume [true]);
             Engine.Act 0 (Engine.Resume [false]);
             Engine.Act 0 Engine.Settle] in
  ∃ w G, Engine.run ls Engine.unmounted = Some w ∧
         Engine.gens w !! 0%nat = Some G ∧
         Engine.loading (Engine.hook w) = false ∧
         Progress.live (Engine.root G) = false.
Proof.
  intros white ls.
  destruct (Engine.run ls Engine.unmounted) as [w|] eqn:Hrun;
    [|by vm_compute in Hrun].
  destruct (Engine.gens w !! 0%nat) as [G|] eqn:HG;
    [|by vm_compute in Hrun; injection Hrun as <-].
  assert (Engine.cancelled G = false ∧ Engine.loading (Engine.hook w) = false)
    as [Hlive Hoff].
  { vm_compute in Hrun. injection Hrun as <-. by injection HG as <-. }
  exists w, G. split_and!; [done..|].
  by apply (not_loading_means_finished ls w 0 G).
Defined.

(** X10.  In every state the hook can reach, the list given to the renderer
    holds no two colours of the same name, also across generations: a new
    generation starts from an empty list and a superseded one never adds to
    it. *)
Theorem shown_names_distinct (ls : list Engine.label) (w : Engine.world) :
  Engine.run ls Engine.unmounted = Some w →
  NoDup (name_value <$> Engine.colors (Engine.hook w)).
Proof.
  intros Hrun.
  destruct (shown_run _ _ _ well_run_unmounted shown_unmounted Hrun)
    as [_ [Hnone Hshown]].
  destruct (Engine.gens w) as [|G0 gs] eqn:Hgens using rev_ind.
  - destruct (Hnone eq_refl) as [-> _]. constructor.
  - clear IHgs.
    destruct (Hshown (length gs) G0) as ([Hnd _] & _); [| |done].
    + by rewrite lookup_app_r, Nat.sub_diag.
    + rewrite length_app. cbn. lia.
Qed.

Lemma shown_names_distinct_witness :
  let old0 := mkColor "Red" 0 "#BF4040" in
  let new0 := mkColor "Red" 0 "#FF0000" in
  let new179 := mkColor "Red" 179 "#FF0000" in
  let ls := [Engine.NewGeneration (50, 50);
             Engine.Act 0 (Engine.Resolve [false] old0);
             Engine.NewGeneration (100, 50);
             Engine.Act 0 (Engine.Resume [false]);
             Engine.Act 1 (Engine.Resolve [false] new0);
             Engine.Act 1 (Engine.Resume [false]);
             Engine.Act 1 (Engine.Resolve [false] new179);
             Engine.Act 1 (Engine.Resume [false])] in
  ∃ w, Engine.run ls Engine.unmounted = Some w ∧
       Engine.colors (Engine.hook w) = [new0] ∧
       NoDup (name_value <$> Engine.colors (Engine.hook w)).
Proof.
  intros old0 new0 new179 ls.
  destruct (Engine.run ls Engine.unmounted) as [w|] eqn:Hrun;
    [|by vm_compute in Hrun].
  exists w. split_and!; [done| |by apply (shown_names_distinct ls)].
  vm_compute in Hrun. by injection Hrun as <-.
Defined.

(** X11.  In a hook instance a generation is cancelled if and only if a
    later one has been started or the component has been unmounted: while
    the component is mounted exactly the generation started last is live,
    and after unmounting none is. *)
Theorem one_live_generation (evs : list Instance.event) (i : Instance.t)
    (g : nat) (G : Engine.generation) :
  Instance.run evs Instance.initial = Some i →
  Engine.gens (Instance.world i) !! g = Some G →
  (Engine.cancelled G = true ↔
   (S g < length (Engine.gens (Instance.world i)))%nat ∨
   Instance.disposed i = true).
Proof.
  intros Hrun HG.
  pose proof (inv_instance_run _ _ _ inv_initial Hrun) as Hinv.
  split; [|by apply inv_cancelled].
  intros Hc. destruct (Instance.disposed i) eqn:Hd; [by right|left].
  unfold Instance.inv in Hinv. rewrite Hd in Hinv.
  destruct Hinv as (_ & _ & Hlast).
  pose proof (lookup_lt_Some _ _ _ HG) as Hlt.
  destruct (decide (S g = length (Engine.gens (Instance.world i))))
    as [Heq|?]; [|lia].
  destruct (Hlast g G HG Heq) as (Hlive & _). congruence.
Qed.

Lemma one_live_generation_witness :
  let evs := [Instance.Step (Engine.NewGeneration (50, 50));
              Instance.Step (Engine.NewGeneration (60, 50));
              Instance.Unmount] in
  ∃ i G, Instance.run evs Instance.initial = Some i ∧
         Engine.gens (Instance.world i) !! 1%nat = Some G ∧
         Engine.cancelled <$> Engine.gens (Instance.world i) = [true; true] ∧
         (Engine.cancelled G = true ↔
          (2 < length (Engine.gens (Instance.world i)))%nat ∨
          Instance.disposed i = true).
Proof.
  intros evs.
  destruct (Instance.run evs Instance.initial) as [i|] eqn:Hrun;
    [|by vm_compute in Hrun].
  destruct (Engine.gens (Instance.world i) !! 1%nat) as [G|] eqn:HG;
    [|by vm_compute in Hrun; injection Hrun as <-].
  exists i, G. split_and!; [done..| |].
  - vm_compute in Hrun. by injection Hrun as <-.
  - by apply (one_live_generation evs i 1 G).
Defined.

(** ** [useColorsParallel] *)

Section ParallelFacts.
Import Parallel.
Context (inherited : string → bool).

Lemma record_lookup (colorMap : gmap string Color) (color : query)
    (name : string) :
  record inherited colorMap color !! name =
    match colorMap !! name with
    | Some d => Some d
    | None => if inherited name then None else loaded_as name color
    end.
Proof.
  unfold record, loaded_as. destruct (isLoading color).
  { destruct (colorMap !! name); [done|by destruct (inherited name)]. }
  destruct (data color) as [d|].
  2:{ destruct (colorMap !! name); [done|by destruct (inherited name)]. }
  destruct (inherited (name_value d)) eqn:Hinh.
  { destruct (colorMap !! name); [done|]. case_bool_decide as Hn; [|by destruct (inherited name)].
    by rewrite <- Hn, Hinh. }
  destruct (colorMap !! name_value d) as [d0|] eqn:Hd.
  - destruct (colorMap !! name) eqn:Hname; [done|].
    case_bool_decide as Hn; [|by destruct (inherited name)].
    rewrite Hn in Hd. congruence.
  - rewrite lookup_insert. case_decide as Hn.
    + rewrite <- Hn, Hd, Hinh. by rewrite bool_decide_eq_true_2.
    + destruct (colorMap !! name); [done|].
      rewrite bool_decide_eq_false_2 by done. by destruct (inherited name).
Qed.

Lemma foldl_record_lookup (colorMap : gmap string Color)
    (colorData : list query) (name : string) :
  foldl (record inherited) colorMap colorData !! name =
    match colorMap !! name with
    | Some d => Some d
    | None => if inherited name then None else first_named name colorData
    end.
Proof.
  revert colorMap. induction colorData as [|color rest IH]; intros colorMap; cbn.
  - destruct (colorMap !! name); [done|by destruct (inherited name)].
  - rewrite IH, record_lookup.
    destruct (colorMap !! name); [done|].
    destruct (inherited name); [done|]. by destruct (loaded_as name color).
Qed.

Lemma first_named_from (name : string) (colorData : list query) (d : Color) :
  first_named name colorData = Some d →
  name_value d = name ∧
  ∃ color, color ∈ colorData ∧ isLoading color = false ∧ data color = Some d.
Proof.
  induction colorData as [|color rest IH]; cbn; [done|].
  destruct (loaded_as name color) as [d'|] eqn:Hl.
  - intros [= ->]. unfold loaded_as in Hl.
    destruct (isLoading color) eqn:?; [done|].
    destruct (data color) as [d0|] eqn:?; [|done].
    case_bool_decide; [|done]. injection Hl as ->.
    split; [done|]. exists color. split_and!; [apply list_elem_of_here|done..].
  - intros [? (c & ? & ? & ?)]%IH. split; [done|].
    exists c. split_and!; [by apply list_elem_of_further|done..].
Qed.

Lemma first_named_found (name : string) (colorData : list query)
    (color : query) (d : Color) :
  color ∈ colorData → isLoading color = false → data color = Some d →
  name_value d = name → is_Some (first_named name colorData).
Proof.
  intros Hin Hl Hd Hn. induction colorData as [|c rest IH]; cbn;
    [by apply elem_of_nil in Hin|].
  destruct (loaded_as name c) eqn:Hc; [by eauto|].
  apply elem_of_cons in Hin as [->|Hin]; [|by apply IH].
  unfold loaded_as in Hc. rewrite Hl, Hd, bool_decide_eq_true_2 in Hc by done.
  done.
Qed.

End ParallelFacts.

(** X12.  The map built by [useColorsParallel] holds, under each name, the
    colour of the first query in hue order that has loaded a colour of that
    name, and nothing under a name [{}] inherits; queries that are loading
    or have no data are passed over.  The flag returned is on exactly when
    some query is loading. *)
Theorem colorsUnique_first_loaded (inherited : string → bool)
    (colorData : list Parallel.query) (name : string) :
  (Parallel.useColorsParallel inherited colorData).1 !! name =
    (if inherited name then None else Parallel.first_named name colorData) ∧
  ((Parallel.useColorsParallel inherited colorData).2 = true ↔
   ∃ color, color ∈ colorData ∧ Parallel.isLoading color = true).
Proof.
  split.
  - cbn. unfold Parallel.colorsUnique.
    by rewrite foldl_record_lookup, lookup_empty.
  - cbn. rewrite existsb_exists. split; intros (c & Hc & ?); exists c.
    + by rewrite list_elem_of_In.
    + by rewrite <- list_elem_of_In.
Qed.

Lemma all_loaded_elem (f : Z → Color) (color : Parallel.query) :
  color ∈ Parallel.all_loaded f ↔
  ∃ h, 0 ≤ h ≤ 359 ∧ color = Parallel.mkQuery false (Some (f h)).
Proof.
  unfold Parallel.all_loaded. rewrite list_elem_of_fmap. split.
  - intros (h & -> & Hh%elem_of_seqZ). exists h. split; [lia|done].
  - intros (h & Hh & ->). exists h. split; [done|]. apply elem_of_seqZ. lia.
Qed.

(** X13.  The two strategies agree when names come in runs: if on each half
    of the domain two hues of the same name have that name all the way
    between them (and no name is one [{}] inherits), then once the
    divide-and-conquer search has returned, its list holds exactly the names
    that [useColorsParallel] finds by asking for all 360 hues. *)
Theorem strategies_agree (inherited : string → bool) (f : Z → Color)
    (g : nat) (ctx : Z * Z) (σ : Engine.shared) (acts : list Engine.action)
    (Gσ' : Engine.generation * Engine.shared) (name : string) :
  Sampled.contiguous f 0 179 → Sampled.contiguous f 180 359 →
  (∀ h, 0 ≤ h ≤ 359 → inherited (name_value (f h)) = false) →
  Sampled.sampled_run f g acts (Engine.start_generation g ctx σ) = true →
  Engine.gen_run g acts (Engine.start_generation g ctx σ) = Some Gσ' →
  Engine.settle (Engine.root Gσ'.1) = Engine.Fulfilled →
  is_Some (Parallel.colorsUnique inherited (Parallel.all_loaded f) !! name) ↔
  ∃ c, c ∈ Engine.colors Gσ'.2 ∧ name_value c = name.
Proof.
  intros Hleft Hright Hinh Hans Hrun Hdone.
  pose proof (gen_run_sampled f g acts _ _
                (start_generation_sampled f g ctx σ) Hans Hrun)
    as ((_ & _ & [_ Hseen] & Hcol) & l & r & Hroot & Hl & Hr).
  rewrite Hroot in Hdone. apply settle_join in Hdone as [Hdl Hdr].
  unfold Parallel.colorsUnique. rewrite foldl_record_lookup, lookup_empty.
  split.
  - destruct (inherited name); [by intros [? ?]|].
    intros [d (Hname & q & (h & Hh & ->)%all_loaded_elem & _ & [= <-])
              %first_named_from].
    assert (name_value (f h) ∈ Engine.seen Gσ'.1) as Hin.
    { destruct (decide (h ≤ 179)).
      - apply (tracks_fulfilled f _ 0 179 l); [done..|lia].
      - apply (tracks_fulfilled f _ 180 359 r); [done..|lia]. }
    apply Hseen in Hin. cbn in Hin.
    apply list_elem_of_fmap in Hin as (c & Hc & ?). exists c.
    split; [done|congruence].
  - intros (c & Hc & <-). destruct (Hcol c Hc) as (h & Hh & ->).
    rewrite (Hinh h Hh).
    apply (first_named_found _ _ (Parallel.mkQuery false (Some (f h))) (f h));
      [|done..].
    apply all_loaded_elem. by exists h.
Qed.

Lemma strategies_agree_witness :
  let f := fun h => if h <? 90 then mkColor "Red" h "#FF0000"
                    else mkColor "Aqua" h "#00FFFF" in
  let inherited := fun name : string =>
    bool_decide (name ∈ ["constructor"; "hasOwnProperty"; "isPrototypeOf";
                         "propertyIsEnumerable"; "toLocaleString"; "toString";
                         "valueOf"; "__proto__"; "__defineGetter__";
                         "__defineSetter__"; "__lookupGetter__";
                         "__lookupSetter__"]) in
  let acts := [Engine.Resolve [false] (f 0); Engine.Resume [false];
               Engine.Resolve [false] (f 179); Engine.Resume [false];
               Engine.Resume [false; false];
               Engine.Resolve [false; false] (f 89);
               Engine.Resume [false; false];
               Engine.Resolve [false; true] (f 90);
               Engine.Resume [false; true]; Engine.Resume [false; true];
               Engine.Resolve [true] (f 180); Engine.Resume [true];
               Engine.Resolve [true] (f 359); Engine.Resume [true];
               Engine.Settle] in
  ∃ Gσ',
    Engine.gen_run 0 acts
      (Engine.start_generation 0 (100, 50) (Engine.hook Engine.unmounted))
      = Some Gσ' ∧
    Engine.colors Gσ'.2 = [f 0; f 90] ∧
    Parallel.colorsUnique inherited (Parallel.all_loaded f)
      = {[ "Red" := f 0; "Aqua" := f 90 ]} ∧
    ∀ name,
      is_Some (Parallel.colorsUnique inherited (Parallel.all_loaded f) !! name)
      ↔ ∃ c, c ∈ Engine.colors Gσ'.2 ∧ name_value c = name.
Proof.
  intros f inherited acts.
  assert (Hruns : ∀ lo hi, Sampled.contiguous f lo hi).
  { intros lo hi a b c _ Hab Hbc _. unfold f.
    destruct (Z.ltb_spec a 90), (Z.ltb_spec b 90), (Z.ltb_spec c 90);
      cbn; try done; lia. }
  destruct (Engine.gen_run 0 acts
              (Engine.start_generation 0 (100, 50) (Engine.hook Engine.unmounted)))
    as [Gσ'|] eqn:Hrun; [|by vm_compute in Hrun].
  exists Gσ'. split_and!; [done| | |].
  - vm_compute in Hrun. by injection Hrun as <-.
  - by vm_compute.
  - intros name.
    apply (strategies_agree inherited f 0 (100, 50)
             (Engine.hook Engine.unmounted) acts Gσ' name);
      [apply Hruns|apply Hruns| |by vm_compute|done|].
    + intros h _. unfold f. by destruct (h <? 90).
    + vm_compute in Hrun. by injection Hrun as <-.
Defined.

(** X14.  A generation as a whole terminates: from its start, with both root
    searches and the launcher, any run takes at most 2873 steps (failed
    requests and the launcher's own step included), and while a call is
    suspended a further step is possible. *)
Theorem generation_terminates (g : nat) (ctx : Z * Z) (σ : Engine.shared)
    (acts : list Engine.action) (Gσ' : Engine.generation * Engine.shared) :
  Engine.gen_run g acts (Engine.start_generation g ctx σ) = Some Gσ' →
  (length acts ≤ 2873)%nat ∧
  (Progress.live (Engine.root Gσ'.1) = true → Progress.enabled g Gσ').
Proof.
  intros Hrun. split; [|apply live_enabled].
  apply gen_run_bounded in Hrun.
  pose proof (gen_potential_nonneg Gσ'.1).
  rewrite (start_generation_eq g ctx σ) in Hrun.
  unfold Measure.gen_potential at 1 in Hrun. cbn in Hrun.
  change (Measure.budget 0 179 + Measure.budget 180 359 + 1)
    with 2873 in Hrun.
  lia.
Qed.

Lemma generation_terminates_witness :
  let white h := mkColor "White" h "#FFFFFF" in
  let acts := [Engine.Resolve [false] (white 0); Engine.Resume [false];
               Engine.Reject [true]; Engine.Resolve [false] (white 179);
               Engine.Resume [false]] in
  ∃ Gσ',
    Engine.gen_run 0 acts
      (Engine.start_generation 0 (0, 100) (Engine.hook Engine.unmounted))
      = Some Gσ' ∧
    Progress.live (Engine.root Gσ'.1) = false ∧
    (length acts ≤ 2873)%nat ∧
    (Progress.live (Engine.root Gσ'.1) = true → Progress.enabled 0 Gσ').
Proof.
  intros white acts.
  destruct (Engine.gen_run 0 acts
              (Engine.start_generation 0 (0, 100) (Engine.hook Engine.unmounted)))
    as [Gσ'|] eqn:Hrun; [|by vm_compute in Hrun].
  exists Gσ'. split; [done|]. split.
  - vm_compute in Hrun. by injection Hrun as <-.
  - by apply (generation_terminates 0 (0, 100)
                (Engine.hook Engine.unmounted) acts Gσ').
Defined.
